(** * Channel layer of scrapli / nssh: a shallow embedding

    The development follows the two source files:

    - [scrapli/channel/base_channel.py]: [BaseChannelArgs], the read-buffer
      window of [_process_read_buf], the failure classifier
      [_ssh_message_handler], [_get_prompt_pattern] and [_strip_ansi];
    - [nssh/channel/channel.py]: [Channel._read_chunk], the read loops and
      the two locked operations [_send_input] and [_send_input_interact].

    Python [bytes] are lists of [byte]; Python [int] is [Z]; an operation
    that can raise returns in an error type. *)

From Stdlib Require Import List ZArith NArith Lia Bool Arith.
From Stdlib Require Import Strings.String Strings.Ascii Strings.Byte.
From Stdlib Require Import Numbers.DecimalString.
Import ListNotations.

Set Implicit Arguments.
Open Scope string_scope.
Open Scope list_scope.

(** ** Bytes *)

Definition bytes := list byte.

(** A bytes literal written as text. *)
Definition b (s : string) : bytes := list_byte_of_string s.

Definition NL : byte := x0a.
Definition CR : byte := x0d.
Definition ESC : byte := x1b.
Definition BEL : byte := x07.

Definition code (c : byte) : N := Byte.to_N c.

Definition in_range (lo hi : N) (c : byte) : bool :=
  (N.leb lo (code c) && N.leb (code c) hi)%bool.

Fixpoint bytes_eqb (x y : bytes) : bool :=
  match x, y with
  | [], [] => true
  | c :: x', d :: y' => Byte.eqb c d && bytes_eqb x' y'
  | _, _ => false
  end.

(** [bytes.startswith] *)
Fixpoint startswith (s prefix : bytes) : bool :=
  match prefix, s with
  | [], _ => true
  | p :: prefix', c :: s' => Byte.eqb c p && startswith s' prefix'
  | _ :: _, [] => false
  end.

(** [bytes.endswith] *)
Definition endswith (s suffix : bytes) : bool :=
  startswith (rev s) (rev suffix).

(** [sub in s] on bytes. *)
Fixpoint contains (s sub : bytes) : bool :=
  startswith s sub ||
  match s with
  | [] => false
  | _ :: s' => contains s' sub
  end.

(** [bytes.lower]: only the ASCII letters A-Z are mapped. *)
Definition lower_byte (c : byte) : byte :=
  if in_range 65 90 c then
    match Byte.of_N (code c + 32) with Some d => d | None => c end
  else c.

Definition lower (s : bytes) : bytes := map lower_byte s.

(** [bytes.partition(sep)] for a one-byte separator: the part before the
    first occurrence, the separator found (empty when absent) and the rest. *)
Fixpoint partition1 (sep : byte) (s : bytes) : bytes * bytes * bytes :=
  match s with
  | [] => ([], [], [])
  | c :: s' =>
      if Byte.eqb c sep then ([], [sep], s')
      else let '(before, found, after) := partition1 sep s' in
           (c :: before, found, after)
  end.

(** ** Python text

    A [str] is modelled on the code points below 256, one character per
    code point; [encode] is UTF-8 and [str_lower] is [str.lower] on that
    range. *)

Definition str := string.

Definition chr (n : N) : ascii := ascii_of_N n.
Definition ord (c : ascii) : N := N_of_ascii c.

Definition byte_of (n : N) : byte :=
  match Byte.of_N n with Some c => c | None => x00 end.

Definition utf8_char (c : ascii) : bytes :=
  let n := ord c in
  if N.ltb n 128 then [byte_of n]
  else [byte_of (192 + N.shiftr n 6); byte_of (128 + N.land n 63)].

(** [str.encode()] *)
Fixpoint encode (s : str) : bytes :=
  match s with
  | EmptyString => []
  | String c s' => utf8_char c ++ encode s'
  end.

Definition lower_char (c : ascii) : ascii :=
  let n := ord c in
  if (N.leb 65 n && N.leb n 90) || (N.leb 192 n && N.leb n 222 && negb (N.eqb n 215))
  then chr (n + 32) else c.

(** [str.lower()] *)
Fixpoint str_lower (s : str) : str :=
  match s with
  | EmptyString => EmptyString
  | String c s' => String (lower_char c) (str_lower s')
  end.

(** [bytes.decode()] of bytes that are all ASCII, which is the only use
    below (the captured groups range over ASCII classes). *)
Definition decode_ascii (s : bytes) : str := string_of_list_byte s.

(** ** Exceptions and results *)

Inductive exn : Type :=
| ScrapliValueError (msg : str)
| ScrapliTypeError (msg : str)
| ScrapliAuthenticationFailed (msg : str)
| OperationTimeout
| UnicodeDecodeError
| TypeError (msg : str)
| ValueError (msg : str)
| AttributeError (msg : str)
| RuntimeError (msg : str)
| ReError.

Inductive result (A : Type) : Type :=
| Ok (a : A)
| Raise (e : exn).

Arguments Ok {A} a.
Arguments Raise {A} e.

(** ** [io.BytesIO], as far as [_process_read_buf] uses it *)

Record BytesIO := mkBytesIO { getvalue : bytes; tell : Z }.

Inductive whence : Type := SEEK_SET | SEEK_CUR | SEEK_END.

Definition Zlen (s : bytes) : Z := Z.of_nat (List.length s).

(** [seek(offset, whence)]: a negative offset from the start is refused;
    from the current position or from the end the new position is the
    base plus the offset, and a negative result is clamped to the start
    of the buffer. *)
Definition seek (offset : Z) (wh : whence) (io : BytesIO) : result BytesIO :=
  match wh with
  | SEEK_SET =>
      if (offset <? 0)%Z
      then Raise (ValueError
             ("negative seek value " ++ NilEmpty.string_of_int (Z.to_int offset))%string)
      else Ok (mkBytesIO (getvalue io) offset)
  | SEEK_CUR => Ok (mkBytesIO (getvalue io) (Z.max 0 (tell io + offset)))
  | SEEK_END => Ok (mkBytesIO (getvalue io) (Z.max 0 (Zlen (getvalue io) + offset)))
  end.

(** [read()]: everything from the position to the end (nothing when the
    position is past the end); the position advances over what was read. *)
Definition read (io : BytesIO) : bytes * BytesIO :=
  let data := skipn (Z.to_nat (tell io)) (getvalue io) in
  (data, mkBytesIO (getvalue io) (tell io + Zlen data)).

(** ** [BaseChannel._process_read_buf] *)

Section ProcessReadBuf.

Variable comms_prompt_search_depth : Z.

Definition _process_read_buf (read_buf : BytesIO) : result (bytes * BytesIO) :=
  match seek (- comms_prompt_search_depth) SEEK_END read_buf with
  | Raise e => Raise e
  | Ok read_buf =>
      let '(search_buf, read_buf) := read read_buf in
      let '(before, _, search_buf) := partition1 NL search_buf in
      if match search_buf with [] => true | _ => false end
      then Ok (before, read_buf)
      else Ok (search_buf, read_buf)
  end.

(** The bytes the seek and the read of [_process_read_buf] obtain: the
    depth-bounded window. *)
Definition search_window (read_buf : BytesIO) : bytes :=
  match seek (- comms_prompt_search_depth) SEEK_END read_buf with
  | Ok read_buf => fst (read read_buf)
  | Raise _ => []
  end.

End ProcessReadBuf.

(** The last [n] bytes of a buffer, the whole buffer when it is shorter. *)
Definition last_bytes (n : nat) (buffer : bytes) : bytes :=
  skipn (List.length buffer - n) buffer.

(** ** [BaseChannelArgs] *)

Inductive channel_log_t : Type :=
| LogBool (flag : bool)
| LogPath (path : str)
| LogBytesIO (sink : BytesIO).

Record BaseChannelArgs := mkBaseChannelArgs {
  auth_telnet_login_pattern : str;
  auth_password_pattern : str;
  auth_passphrase_pattern : str;
  comms_prompt_pattern : str;
  comms_return_char : str;
  comms_prompt_search_depth : Z;
  timeout_ops : Z;
  channel_log : channel_log_t;
  channel_log_mode : str;
  channel_lock : bool
}.

Definition BSL : ascii := chr 92.

(** The dataclass defaults; the backslashes of the raw strings are written
    with [BSL]. *)
Definition default_auth_telnet_login_pattern : str :=
  ("^(.*username:)|(.*login:)" ++ String BSL "s?$")%string.
Definition default_auth_password_pattern : str :=
  ("(.*@.*)?password:" ++ String BSL "s?$")%string.
Definition default_auth_passphrase_pattern : str :=
  "enter passphrase for key"%string.
Definition default_comms_prompt_pattern : str :=
  ("^[a-z0-9." ++ String BSL "-@()/:]{1,32}[#>$]$")%string.

(** The dataclass constructor with every field left to its default;
    [timeout_ops] is in seconds. *)
Definition default_args : BaseChannelArgs :=
  mkBaseChannelArgs
    default_auth_telnet_login_pattern
    default_auth_password_pattern
    default_auth_passphrase_pattern
    default_comms_prompt_pattern
    (String (chr 10) EmptyString)
    1000
    30
    (LogBool false)
    "write"%string
    false.

Definition set_auth_telnet_login_pattern (v : str) (a : BaseChannelArgs) :=
  mkBaseChannelArgs v (auth_password_pattern a) (auth_passphrase_pattern a)
    (comms_prompt_pattern a) (comms_return_char a)
    (comms_prompt_search_depth a) (timeout_ops a) (channel_log a)
    (channel_log_mode a) (channel_lock a).

Definition set_auth_password_pattern (v : str) (a : BaseChannelArgs) :=
  mkBaseChannelArgs (auth_telnet_login_pattern a) v (auth_passphrase_pattern a)
    (comms_prompt_pattern a) (comms_return_char a)
    (comms_prompt_search_depth a) (timeout_ops a) (channel_log a)
    (channel_log_mode a) (channel_lock a).

Definition set_auth_passphrase_pattern (v : str) (a : BaseChannelArgs) :=
  mkBaseChannelArgs (auth_telnet_login_pattern a) (auth_password_pattern a) v
    (comms_prompt_pattern a) (comms_return_char a)
    (comms_prompt_search_depth a) (timeout_ops a) (channel_log a)
    (channel_log_mode a) (channel_lock a).

Definition set_comms_prompt_pattern (v : str) (a : BaseChannelArgs) :=
  mkBaseChannelArgs (auth_telnet_login_pattern a) (auth_password_pattern a)
    (auth_passphrase_pattern a) v (comms_return_char a)
    (comms_prompt_search_depth a) (timeout_ops a) (channel_log a)
    (channel_log_mode a) (channel_lock a).

Definition set_channel_log_mode (v : str) (a : BaseChannelArgs) :=
  mkBaseChannelArgs (auth_telnet_login_pattern a) (auth_password_pattern a)
    (auth_passphrase_pattern a) (comms_prompt_pattern a) (comms_return_char a)
    (comms_prompt_search_depth a) (timeout_ops a) (channel_log a)
    v (channel_lock a).

Definition is_empty (s : str) : bool :=
  match s with EmptyString => true | _ => false end.

(** [BaseChannelArgs.__post_init__]: the object is mutated in place, so the
    validated arguments are returned. *)
Definition __post_init__ (self : BaseChannelArgs) : result BaseChannelArgs :=
  let self :=
    if is_empty (auth_telnet_login_pattern self)
    then set_auth_telnet_login_pattern default_auth_telnet_login_pattern self
    else self in
  let self :=
    if is_empty (auth_password_pattern self)
    then set_auth_password_pattern default_auth_password_pattern self
    else self in
  let self :=
    if is_empty (auth_passphrase_pattern self)
    then set_auth_passphrase_pattern default_auth_passphrase_pattern self
    else self in
  let mode := str_lower (channel_log_mode self) in
  if negb (String.eqb mode "write" || String.eqb mode "append") then
    Raise (ScrapliValueError
      ("provided channel_log_mode '" ++ channel_log_mode self ++
       "' is not valid, mode must be one of: 'write', 'append'")%string)
  else if String.eqb mode "write"
  then Ok (set_channel_log_mode "w" self)
  else Ok (set_channel_log_mode "a" self).

(** The four pattern fields of the configuration. *)
Inductive pattern_field : Type :=
| AuthTelnetLogin | AuthPassword | AuthPassphrase | CommsPrompt.

Definition get_pattern (f : pattern_field) (a : BaseChannelArgs) : str :=
  match f with
  | AuthTelnetLogin => auth_telnet_login_pattern a
  | AuthPassword => auth_password_pattern a
  | AuthPassphrase => auth_passphrase_pattern a
  | CommsPrompt => comms_prompt_pattern a
  end.

Definition set_pattern (f : pattern_field) (v : str) (a : BaseChannelArgs) :=
  match f with
  | AuthTelnetLogin => set_auth_telnet_login_pattern v a
  | AuthPassword => set_auth_password_pattern v a
  | AuthPassphrase => set_auth_passphrase_pattern v a
  | CommsPrompt => set_comms_prompt_pattern v a
  end.

Definition default_pattern (f : pattern_field) : str :=
  get_pattern f default_args.

(** ** Compiled patterns

    A compiled pattern keeps its source and the two flags the module uses.
    Matching is defined on the fragment used below: sources made of
    ordinary bytes and backslash-escaped non-alphanumeric bytes, which the
    [re] parser reads as a literal. *)

Record Pattern := mkPattern {
  pattern_source : bytes;
  flag_M : bool;
  flag_I : bool
}.

(** [re.compile(source, flags=re.M | re.I)] and [re.compile(source)] *)
Definition re_compile_MI (source : bytes) : Pattern := mkPattern source true true.
Definition re_compile (source : bytes) : Pattern := mkPattern source false false.

Definition code_in (l : list N) (c : byte) : bool := existsb (N.eqb (code c)) l.

(** The bytes [re.escape] puts a backslash in front of:
    [()[]{}?*+-|^$\.&~#], space, tab, newline, return, VT and FF. *)
Definition escape_special : list N :=
  [40; 41; 91; 93; 123; 125; 63; 42; 43; 45; 124; 94; 36; 92; 46; 38; 126; 35;
   32; 9; 10; 13; 11; 12]%N.

Definition re_escape (s : bytes) : bytes :=
  flat_map (fun c => if code_in escape_special c then [x5c; c] else [c]) s.

(** The characters the [re] parser does not read as themselves:
    [.\[{()*+?^$|]. *)
Definition parser_special : list N :=
  [46; 92; 91; 123; 40; 41; 42; 43; 63; 94; 36; 124]%N.

Definition is_alnum (c : byte) : bool :=
  in_range 48 57 c || in_range 65 90 c || in_range 97 122 c.

(** The literal a source denotes, when the source lies in the fragment. *)
Fixpoint literal_of_source (src : bytes) : option bytes :=
  match src with
  | [] => Some []
  | c :: rest =>
      if Byte.eqb c x5c then
        match rest with
        | d :: rest' =>
            if is_alnum d then None
            else option_map (cons d) (literal_of_source rest')
        | [] => None
        end
      else if code_in parser_special c then None
      else option_map (cons c) (literal_of_source rest)
  end.

(** [re.search(pattern, text)] as a truth value, on the literal fragment;
    [None] for a source outside the fragment. With [re.I] the ASCII letters
    are compared without case. *)
Definition search (p : Pattern) (text : bytes) : option bool :=
  match literal_of_source (pattern_source p) with
  | Some lit =>
      Some (if flag_I p then contains (lower text) (lower lit)
            else contains text lit)
  | None => None
  end.

Fixpoint take_while (f : byte -> bool) (s : bytes) : bytes :=
  match s with
  | c :: s' => if f c then c :: take_while f s' else []
  | [] => []
  end.

(** Group 1 of the leftmost match of a pattern made of a lower-case
    literal followed by one captured group, a starred character class,
    compiled with [re.M | re.I]: the literal is compared without case and
    the class is tested on the lower-cased byte. *)
Fixpoint search_group1 (lit : bytes) (cls : byte -> bool) (text : bytes)
  : option bytes :=
  if startswith (lower text) lit
  then Some (take_while (fun c => cls (lower_byte c)) (skipn (List.length lit) text))
  else match text with
       | [] => None
       | _ :: text' => search_group1 lit cls text'
       end.

(** [[a-z0-9\-,]] and [[a-z0-9\+\=,]] *)
Definition offer_class (c : byte) : bool :=
  in_range 97 122 c || in_range 48 57 c || code_in [45; 44]%N c.
Definition option_class (c : byte) : bool :=
  in_range 97 122 c || in_range 48 57 c || code_in [43; 61; 44]%N c.

(** ** [str(output)] for [bytes]: the [b'...'] representation *)

Definition hex_digit (n : N) : byte :=
  nth (N.to_nat n) (b "0123456789abcdef") x30.

Definition repr_byte (quote : byte) (c : byte) : bytes :=
  if Byte.eqb c quote || Byte.eqb c x5c then [x5c; c]
  else if Byte.eqb c x09 then [x5c; x74]
  else if Byte.eqb c x0a then [x5c; x6e]
  else if Byte.eqb c x0d then [x5c; x72]
  else if N.ltb (code c) 32 || N.leb 127 (code c)
  then [x5c; x78; hex_digit (N.shiftr (code c) 4); hex_digit (N.land (code c) 15)]
  else [c].

Definition bytes_repr (s : bytes) : str :=
  let has c := existsb (Byte.eqb c) s in
  let quote := if has x27 && negb (has x22) then x22 else x27 in
  string_of_list_byte ([x62; quote] ++ flat_map (repr_byte quote) s ++ [quote]).

(** ** [BaseChannel._ssh_message_handler] *)

Definition with_detail (msg label : str) (detail : option bytes) : str :=
  match detail with
  | Some d => (msg ++ label ++ decode_ascii d)%string
  | None => msg
  end.

(** The message the chain of [if]/[elif] computes; empty when no rule
    matches. *)
Definition _ssh_message (output : bytes) : str :=
  let low := lower output in
  if contains low (b "host key verification failed") then
    "Host key verification failed"
  else if contains low (b "operation timed out")
          || contains low (b "connection timed out") then
    "Timed out connecting to host"
  else if contains low (b "no route to host") then
    "No route to host"
  else if contains low (b "no matching host key") then
    with_detail "No matching host key type found for host" ", their offer: "
      (search_group1 (b "their offer: ") offer_class output)
  else if contains low (b "no matching key exchange") then
    with_detail "No matching key exchange found for host" ", their offer: "
      (search_group1 (b "their offer: ") offer_class output)
  else if contains low (b "no matching cipher") then
    with_detail "No matching cipher found for host" ", their offer: "
      (search_group1 (b "their offer: ") offer_class output)
  else if contains low (b "bad configuration") then
    with_detail "Bad SSH configuration option(s) for host" ", bad option(s): "
      (search_group1 (b "bad configuration option: ") option_class output)
  else if contains output (b "WARNING: UNPROTECTED PRIVATE KEY FILE!") then
    "Permissions for private key are too open, authentication failed!"
  else if contains low (b "could not resolve hostname") then
    "Could not resolve address for host"
  else if contains low (b "permission denied") then
    bytes_repr output
  else "".

Definition _ssh_message_handler (output : bytes) : result unit :=
  let msg := _ssh_message output in
  if is_empty msg then Ok tt else Raise (ScrapliAuthenticationFailed msg).

(** ** [BaseChannel._get_prompt_pattern] *)

Definition _get_prompt_pattern (class_pattern : str) (pattern : option str)
  : Pattern :=
  match pattern with
  | None => re_compile_MI (encode class_pattern)
  | Some pattern =>
      if is_empty pattern then re_compile_MI (encode class_pattern)
      else
        let bytes_pattern := encode pattern in
        if startswith bytes_pattern (b "^") && endswith bytes_pattern (b "$")
        then re_compile_MI bytes_pattern
        else re_compile (re_escape bytes_pattern)
  end.

(** ** A backtracking matcher for [ANSI_ESCAPE_PATTERN]

    The pattern uses character classes, sequence, ordered alternation and
    greedy repetition. The matcher follows the order in which [re] tries
    the alternatives: the first way of matching that lets the rest of the
    pattern succeed is taken. The continuation receives the input left
    after the part matched so far. *)

Inductive regex : Type :=
| Eps
| Class (f : byte -> bool)
| Seq (r1 r2 : regex)
| Alt (r1 r2 : regex)
| Opt (r : regex)
| Star (r : regex).

Fixpoint matchk (r : regex) (s : bytes) (k : bytes -> option bytes)
  : option bytes :=
  match r with
  | Eps => k s
  | Class f =>
      match s with
      | c :: s' => if f c then k s' else None
      | [] => None
      end
  | Seq r1 r2 => matchk r1 s (fun s' => matchk r2 s' k)
  | Alt r1 r2 =>
      match matchk r1 s k with
      | Some rest => Some rest
      | None => matchk r2 s k
      end
  | Opt r1 =>
      match matchk r1 s k with
      | Some rest => Some rest
      | None => k s
      end
  | Star r1 =>
      (fix loop (fuel : nat) (s : bytes) {struct fuel} : option bytes :=
         match fuel with
         | O => k s
         | S fuel' =>
             match matchk r1 s
                     (fun s' => if Nat.ltb (List.length s') (List.length s)
                                then loop fuel' s' else None) with
             | Some rest => Some rest
             | None => k s
             end
         end) (S (List.length s)) s
  end.

(** [pattern.match] at the start of [s]: the input left after the match. *)
Definition match_here (r : regex) (s : bytes) : option bytes :=
  matchk r s Some.

(** Bounded greedy repetition [r{lo,hi}]. *)
Fixpoint at_most (n : nat) (r : regex) : regex :=
  match n with
  | O => Eps
  | S n' => Opt (Seq r (at_most n' r))
  end.

Fixpoint exactly (n : nat) (r : regex) : regex :=
  match n with
  | O => Eps
  | S n' => Seq r (exactly n' r)
  end.

Definition Rep (lo hi : nat) (r : regex) : regex :=
  Seq (exactly lo r) (at_most (hi - lo) r).

Definition digit (c : byte) : bool := in_range 48 57 c.
Definition letter (c : byte) : bool := in_range 65 90 c || in_range 97 122 c.

(** [[\x1B\x9B]] *)
Definition ansi_lead (c : byte) : bool := code_in [27; 155]%N c.
(** The modifiers: brackets, parentheses, hash, semicolon, question mark. *)
Definition ansi_modifier (c : byte) : bool :=
  code_in [91; 93; 40; 41; 35; 59; 63]%N c.
(** [[\dA-PRZcf-ntqry=><~]] *)
Definition ansi_final (c : byte) : bool :=
  digit c || in_range 65 80 c || in_range 102 110 c
  || code_in [82; 90; 99; 116; 113; 114; 121; 61; 62; 60; 126]%N c.

Definition semicolon : regex := Class (fun c => code_in [59]%N c).

Definition ANSI_ESCAPE_PATTERN : regex :=
  Seq (Class ansi_lead)
  (Seq (Star (Class ansi_modifier))
       (Alt
          (Seq (Opt (Seq (Star (Class (fun c => letter c || digit c)))
                         (Star (Seq semicolon
                                    (Star (Class (fun c => letter c || digit c)))))))
               (Class (fun c => code_in [7]%N c)))
          (Seq (Opt (Seq (Rep 1 4 (Class digit))
                         (Star (Seq semicolon (Rep 0 4 (Class digit))))))
               (Class ansi_final)))).

(** [re.sub(pattern, b'', buf)]: matches are looked for from left to right;
    a match is dropped and the scan goes on after it, a byte at which
    nothing matches is kept. A match of no bytes drops nothing. The fuel
    is the number of scan steps, at most one per byte. *)
Fixpoint re_sub_empty (r : regex) (fuel : nat) (buf : bytes) : bytes :=
  match fuel with
  | O => buf
  | S fuel' =>
      match buf with
      | [] => []
      | c :: buf' =>
          match match_here r buf with
          | Some rest =>
              if Nat.ltb (List.length rest) (List.length buf)
              then re_sub_empty r fuel' rest
              else c :: re_sub_empty r fuel' buf'
          | None => c :: re_sub_empty r fuel' buf'
          end
      end
  end.

(** ** [BaseChannel._strip_ansi] *)
Definition _strip_ansi (buf : bytes) : bytes :=
  re_sub_empty ANSI_ESCAPE_PATTERN (List.length buf) buf.

(** ** Decoded text

    [bytes.decode('unicode_escape')] yields text whose code points may
    exceed 255, so decoded text is a list of code points. *)

Definition text := list N.

Definition hex_val (c : byte) : option N :=
  if in_range 48 57 c then Some (code c - 48)%N
  else if in_range 97 102 c then Some (code c - 87)%N
  else if in_range 65 70 c then Some (code c - 55)%N
  else None.

(** Exactly [n] hexadecimal digits. *)
Fixpoint hex_run (n : nat) (acc : N) (s : bytes) : option (N * bytes) :=
  match n with
  | O => Some (acc, s)
  | S n' =>
      match s with
      | c :: s' =>
          match hex_val c with
          | Some v => hex_run n' (16 * acc + v)%N s'
          | None => None
          end
      | [] => None
      end
  end.

(** At most [n] further octal digits. *)
Fixpoint oct_run (n : nat) (acc : N) (s : bytes) : N * bytes :=
  match n with
  | O => (acc, s)
  | S n' =>
      match s with
      | c :: s' =>
          if in_range 48 55 c then oct_run n' (8 * acc + (code c - 48))%N s'
          else (acc, s)
      | [] => (acc, s)
      end
  end.

Section UnicodeEscape.

(** The table of character names behind the escape [\N{...}]. *)
Variable unicodedata_lookup : bytes -> option N.

(** One escape, after its backslash: the text it stands for and the
    input left, or [None] where the codec raises. *)
Definition decode_escape (s : bytes) : option (text * bytes) :=
  match s with
  | [] => None
  | d :: s' =>
      let simple (n : N) := Some ([n], s') in
      match code d with
      | 10%N => Some ([], s')
      | 92%N => simple 92%N
      | 39%N => simple 39%N
      | 34%N => simple 34%N
      | 98%N => simple 8%N
      | 102%N => simple 12%N
      | 116%N => simple 9%N
      | 110%N => simple 10%N
      | 114%N => simple 13%N
      | 118%N => simple 11%N
      | 97%N => simple 7%N
      | 120%N => option_map (fun '(v, r) => ([v], r)) (hex_run 2 0 s')
      | 117%N => option_map (fun '(v, r) => ([v], r)) (hex_run 4 0 s')
      | 85%N =>
          match hex_run 8 0 s' with
          | Some (v, r) => if N.leb v 1114111 then Some ([v], r) else None
          | None => None
          end
      | 78%N =>
          match s' with
          | x7b :: s'' =>
              let '(name, found, after) := partition1 x7d s'' in
              match found, name with
              | [], _ => None
              | _, [] => None
              | _, _ => option_map (fun v => ([v], after)) (unicodedata_lookup name)
              end
          | _ => None
          end
      | _ =>
          if in_range 48 55 d
          then let '(v, r) := oct_run 2 (code d - 48)%N s' in Some ([v], r)
          else Some ([92%N; code d], s')
      end
  end.

Fixpoint decode_escaped (fuel : nat) (s : bytes) : option text :=
  match s with
  | [] => Some []
  | c :: s' =>
      match fuel with
      | O => None
      | S fuel' =>
          if Byte.eqb c x5c then
            match decode_escape s' with
            | Some (t, rest) => option_map (app t) (decode_escaped fuel' rest)
            | None => None
            end
          else option_map (cons (code c)) (decode_escaped fuel' s')
      end
  end.

(** [s.decode('unicode_escape')]; [None] is [UnicodeDecodeError]. Every
    step consumes a byte, so the length of the input is enough fuel. *)
Definition decode_unicode_escape (s : bytes) : option text :=
  decode_escaped (List.length s) s.

End UnicodeEscape.

(** [str.isspace] of one code point. *)
Definition isspace (n : N) : bool :=
  (N.leb 9 n && N.leb n 13) || (N.leb 28 n && N.leb n 32)
  || existsb (N.eqb n) [133; 160; 5760; 8232; 8233; 8239; 8287; 12288]%N
  || (N.leb 8192 n && N.leb n 8202).

Fixpoint lstrip (t : text) : text :=
  match t with
  | n :: t' => if isspace n then lstrip t' else t
  | [] => []
  end.

(** [str.strip()] *)
Definition strip (t : text) : text := rev (lstrip (rev (lstrip t))).

(** [re.sub('\r', '\n', t)] *)
Definition cr_to_nl (t : text) : text :=
  map (fun n => if N.eqb n 13 then 10%N else n) t.

(** [bytes.splitlines()]: lines end at LF, CR or CRLF, which are dropped;
    a final line end opens no further line. *)
Fixpoint splitlines_from (cur s : bytes) : list bytes :=
  match s with
  | [] => match cur with [] => [] | _ => [rev cur] end
  | c :: s' =>
      if Byte.eqb c NL then rev cur :: splitlines_from [] s'
      else if Byte.eqb c CR then
        match s' with
        | d :: s'' =>
            if Byte.eqb d NL then rev cur :: splitlines_from [] s''
            else rev cur :: splitlines_from [] s'
        | [] => [rev cur]
        end
      else splitlines_from (c :: cur) s'
  end.

Definition splitlines (s : bytes) : list bytes := splitlines_from [] s.

(** [sep.join(rows)] *)
Fixpoint join (sep : bytes) (rows : list bytes) : bytes :=
  match rows with
  | [] => []
  | [row] => row
  | row :: rows' => row ++ sep ++ join sep rows'
  end.

Definition nonempty (s : bytes) : bool :=
  match s with [] => false | _ => true end.

(** ** The transport and the effects of a channel operation

    An operation of [nssh.channel.channel.Channel] runs against a world:
    the session lock, the chunks the device will deliver to the coming
    reads, the time left to the running operation, and the record of the
    calls made on the transport. *)

Inductive event : Type :=
| EvAcquire
| EvRelease
| EvFlush
| EvWrite (data : str)
| EvRead (chunk : bytes)
| EvSetBlocking (flag : bool).

Record world := mkWorld {
  locked : bool;
  incoming : list bytes;
  clock : nat;
  trace : list event
}.

Inductive outcome (A : Type) : Type :=
| Done (a : A) (w : world)
| Failed (e : exn) (w : world)
| Expired (w : world).

Arguments Done {A} a w.
Arguments Failed {A} e w.
Arguments Expired {A} w.

Definition M (A : Type) : Type := world -> outcome A.

Definition ret {A} (a : A) : M A := fun w => Done a w.

Definition bind {A B} (c : M A) (k : A -> M B) : M B :=
  fun w =>
    match c w with
    | Done a w' => k a w'
    | Failed e w' => Failed e w'
    | Expired w' => Expired w'
    end.

Definition fail {A} (e : exn) : M A := fun w => Failed e w.

Notation "x <- c ;; k" := (bind c (fun x => k))
  (at level 61, c at next level, right associativity).
Notation "' pat <- c ;; k" :=
  (bind c (fun x => match x with pat => k end))
  (at level 61, pat pattern, c at next level, right associativity).
Notation "c ;;; k" := (bind c (fun _ => k))
  (at level 61, right associativity).

Definition world_of {A} (o : outcome A) : world :=
  match o with
  | Done _ w => w
  | Failed _ w => w
  | Expired w => w
  end.

Definition log (e : event) (w : world) : world :=
  mkWorld (locked w) (incoming w) (clock w) (trace w ++ [e]).

Module Transport.

(** The Transport of nssh.transport.transport is not among the sources;
    its operations follow spec 5 and 6. Time is counted in reads: a read
    takes one unit of the time left to the operation. The I/O errors of
    a transport, which a channel lets through unchanged (spec 7), are not
    among the outcomes of these operations: what is proved of a channel
    operation concerns the runs in which the transport itself does not
    fail. *)

(** Modelled from the spec: [session_lock.acquire()] of the missing
    Transport. Spec 5: one mutual-exclusion lock without reentrancy, so
    acquiring a held lock waits, here until the time of the operation is
    up. *)
Definition session_lock_acquire : M unit :=
  fun w =>
    if locked w then Expired (mkWorld true (incoming w) 0 (trace w))
    else Done tt (log EvAcquire (mkWorld true (incoming w) (clock w) (trace w))).

(** Modelled from the spec: [session_lock.release()] of the missing
    Transport; releasing a lock that is not held is an error of the lock. *)
Definition session_lock_release : M unit :=
  fun w =>
    if locked w
    then Done tt (log EvRelease (mkWorld false (incoming w) (clock w) (trace w)))
    else Failed (RuntimeError "release unlocked lock") w.

(** Modelled from the spec: [flush()] of the missing Transport (spec 6),
    which discards stale buffered bytes; the chunks of the world are the
    ones still to come, so only the call is recorded. *)
Definition flush : M unit := fun w => Done tt (log EvFlush w).

(** Modelled from the spec: [write(data)] of the missing Transport
    (spec 6). *)
Definition write (data : str) : M unit := fun w => Done tt (log (EvWrite data) w).

(** Modelled from the spec: [set_blocking(flag)] of the missing Transport
    (spec 6). *)
Definition set_blocking (flag : bool) : M unit :=
  fun w => Done tt (log (EvSetBlocking flag) w).

(** Modelled from the spec: [read()] of the missing Transport (spec 6),
    the chunk currently available: the next chunk of the device, or no
    bytes when the device has nothing more to send. A read for which the
    operation has no time left does not return. *)
Definition read : M bytes :=
  fun w =>
    match clock w with
    | O => Expired w
    | S t =>
        match incoming w with
        | chunk :: rest =>
            Done chunk (log (EvRead chunk) (mkWorld (locked w) rest t (trace w)))
        | [] =>
            Done [] (log (EvRead []) (mkWorld (locked w) [] t (trace w)))
        end
    end.

End Transport.

(** ** [nssh.channel.channel.Channel] *)

Record Channel := mkChannel {
  ch_comms_prompt_pattern : str;
  ch_comms_return_char : str;
  ch_comms_ansi : bool;
  ch_timeout_ops : nat
}.

(** [nssh.result.Result] is not among the sources: the record keeps what
    the channel passes to its constructor and what it stores in it. *)
Record Result := mkResult {
  res_host : str;
  res_channel_input : str;
  res_expectation : option str;
  res_response : option str;
  res_finale : option str;
  raw_result : str;
  result_text : str
}.

(** What a caller can pass as [inputs] to [send_inputs_interact]: a list or
    tuple of strings, a list or tuple of stage tuples, or something that
    is neither a list nor a tuple. *)
Inductive interact_inputs : Type :=
| Strings (fields : list str)
| Stages (stages : list (list str))
| NotASequence (type_repr : str).

(** The message of the [ValueError] raised when a sequence of [n] items,
    [n] other than 4, is unpacked into four names. *)
Definition unpack4_message (n : nat) : str :=
  match n with
  | 0 => "not enough values to unpack (expected 4, got 0)"
  | 1 => "not enough values to unpack (expected 4, got 1)"
  | 2 => "not enough values to unpack (expected 4, got 2)"
  | 3 => "not enough values to unpack (expected 4, got 3)"
  | _ => "too many values to unpack (expected 4)"
  end.

Module Nssh.

Section Channel.

(** The helpers of nssh.helper and the library functions the channel
    calls are parameters: the compiled prompt pattern, [re.search] on
    decoded text, [re.sub] of a prompt pattern compiled from its source
    ([None] where the source does not compile), [bytes.decode()]
    ([None] where it raises) and the name table of the escape codec. *)
Variable pattern_t : Type.
Variable get_prompt_pattern : str -> str -> pattern_t.
Variable re_search : pattern_t -> text -> bool.
Variable re_sub_MI : bytes -> bytes -> option bytes.
Variable normalize_lines : bytes -> bytes.
Variable strip_ansi : bytes -> bytes.
Variable bytes_decode : bytes -> option str.
Variable unicodedata_lookup : bytes -> option N.
Variable host : str.

Variable self : Channel.

(** Modelled from the spec: the decorator [operation_timeout] of
    nssh.decorators, which is not among the sources. Spec 4.5 and 5:
    one timeout covers the whole protocol; on expiry any held lock is
    released and an OperationTimeout failure is raised. Other failures
    pass through unchanged (spec 7). *)
Definition operation_timeout {A} (body : M A) : M A :=
  fun w =>
    match body (mkWorld (locked w) (incoming w) (ch_timeout_ops self) (trace w)) with
    | Expired w' =>
        Failed OperationTimeout
          (if locked w'
           then log EvRelease (mkWorld false (incoming w') (clock w') (trace w'))
           else w')
    | o => o
    end.

Definition _restructure_output (output : bytes) (strip_prompt : bool)
  : M bytes :=
  let output := normalize_lines output in
  let output := join [NL] (filter nonempty (splitlines output)) in
  if negb strip_prompt then ret output
  else
    match re_sub_MI (encode (ch_comms_prompt_pattern self)) output with
    | Some output => ret output
    | None => fail ReError
    end.

Definition _read_chunk : M bytes :=
  new_output <- Transport.read ;;
  ret (if ch_comms_ansi self then new_output ++ strip_ansi new_output
       else new_output).

(** What [_read_chunk] makes of the bytes of one read, and of the bytes of
    several reads in a row. *)
Definition chunk_of (raw : bytes) : bytes :=
  if ch_comms_ansi self then raw ++ strip_ansi raw else raw.

Definition chunks_of (raws : list bytes) : bytes :=
  List.concat (map chunk_of raws).

(** The [while] loops read once per turn, so a loop that has the time
    for [t] reads takes at most [t] full turns. *)
Fixpoint read_until_input_loop (turns : nat) (channel_input output : bytes)
  : M bytes :=
  if contains output channel_input then ret output
  else
    match turns with
    | O => Expired
    | S turns' =>
        chunk <- _read_chunk ;;
        read_until_input_loop turns' channel_input (output ++ chunk)
    end.

Definition _read_until_input (channel_input : bytes) : M bytes :=
  fun w => read_until_input_loop (S (clock w)) channel_input [] w.

Fixpoint read_until_prompt_loop (turns : nat) (prompt_pattern : pattern_t)
  (output : bytes) : M bytes :=
  match turns with
  | O => Expired
  | S turns' =>
      chunk <- _read_chunk ;;
      let output := output ++ chunk in
      match decode_unicode_escape unicodedata_lookup output with
      | None => fail UnicodeDecodeError
      | Some decoded =>
          let output_copy := cr_to_nl (strip decoded) in
          if re_search prompt_pattern output_copy
          then Transport.set_blocking true ;;; ret output
          else read_until_prompt_loop turns' prompt_pattern output
      end
  end.

Definition _read_until_prompt (output : bytes) (prompt : str) : M bytes :=
  let prompt_pattern := get_prompt_pattern prompt (ch_comms_prompt_pattern self) in
  Transport.set_blocking false ;;;
  fun w => read_until_prompt_loop (S (clock w)) prompt_pattern output w.

(** The test of one turn of [_read_until_prompt]: the output decodes and
    the prompt pattern is found in the decoded copy. *)
Definition prompt_seen (prompt : str) (output : bytes) : Prop :=
  exists decoded,
    decode_unicode_escape unicodedata_lookup output = Some decoded
    /\ re_search (get_prompt_pattern prompt (ch_comms_prompt_pattern self))
                 (cr_to_nl (strip decoded)) = true.

Definition _send_return : M unit :=
  Transport.flush ;;;
  Transport.write (ch_comms_return_char self).

(** [_send_input]: the function as written, and the function the
    decorator makes of it. *)
Definition _send_input_body (channel_input : str) (strip_prompt : bool)
  : M (bytes * bytes) :=
  let bytes_channel_input := encode channel_input in
  Transport.session_lock_acquire ;;;
  Transport.flush ;;;
  Transport.write channel_input ;;;
  _ <- _read_until_input bytes_channel_input ;;
  _send_return ;;;
  output <- _read_until_prompt [] "" ;;
  Transport.session_lock_release ;;;
  processed_output <- _restructure_output output strip_prompt ;;
  ret (output, processed_output).

Definition _send_input (channel_input : str) (strip_prompt : bool)
  : M (bytes * bytes) :=
  operation_timeout (_send_input_body channel_input strip_prompt).

Definition _send_input_interact_body
  (channel_input expectation response finale : str) (hidden_response : bool)
  : M (bytes * bytes) :=
  let bytes_channel_input := encode channel_input in
  Transport.session_lock_acquire ;;;
  Transport.flush ;;;
  Transport.write channel_input ;;;
  _ <- _read_until_input bytes_channel_input ;;
  _send_return ;;;
  output <- _read_until_prompt [] expectation ;;
  let output :=
    if is_empty response then output ++ encode (ch_comms_return_char self)
    else if hidden_response then output ++ encode (ch_comms_return_char self)
    else output in
  Transport.write response ;;;
  _send_return ;;;
  output' <- _read_until_prompt [] finale ;;
  let output := output ++ output' in
  Transport.session_lock_release ;;;
  processed_output <- _restructure_output output false ;;
  ret (output, processed_output).

Definition _send_input_interact
  (channel_input expectation response finale : str) (hidden_response : bool)
  : M (bytes * bytes) :=
  operation_timeout
    (_send_input_interact_body channel_input expectation response finale
       hidden_response).

Definition decode_or_fail (s : bytes) : M str :=
  match bytes_decode s with
  | Some t => ret t
  | None => fail UnicodeDecodeError
  end.

Fixpoint send_inputs_loop (raw_inputs : list str) (strip_prompt : bool)
  (results : list Result) : M (list Result) :=
  match raw_inputs with
  | [] => ret results
  | channel_input :: rest =>
      '(raw, processed) <- _send_input channel_input strip_prompt ;;
      raw_text <- decode_or_fail raw ;;
      processed_text <- decode_or_fail processed ;;
      send_inputs_loop rest strip_prompt
        (results ++ [mkResult host channel_input None None None
                       raw_text processed_text])
  end.

(** [send_inputs]: a single string is wrapped into a one-element tuple
    by the caller of this function. *)
Definition send_inputs (inputs : list str) (strip_prompt : bool)
  : M (list Result) :=
  send_inputs_loop inputs strip_prompt [].

(** [send_inputs_interact]: [inputs] itself is the one element of
    [input_stages], and the [for] statement unpacks it into four names. *)
Definition send_inputs_interact (inputs : interact_inputs)
  (hidden_response : bool) : M (list Result) :=
  match inputs with
  | NotASequence type_repr =>
      fail (TypeError
        ("send_inputs_interact expects a List or Tuple, got " ++ type_repr)%string)
  | Strings [channel_input; expectation; response; finale] =>
      '(raw, processed) <- _send_input_interact channel_input expectation
                             response finale hidden_response ;;
      raw_text <- decode_or_fail raw ;;
      processed_text <- decode_or_fail processed ;;
      ret [mkResult host channel_input (Some expectation) (Some response)
             (Some finale) raw_text processed_text]
  | Stages [_; _; _; _] =>
      operation_timeout
        (fail (AttributeError "'tuple' object has no attribute 'encode'"))
  | Strings fields => fail (ValueError (unpack4_message (List.length fields)))
  | Stages stages => fail (ValueError (unpack4_message (List.length stages)))
  end.

End Channel.

End Nssh.

(** ** A concrete setting

    To run the channel, its parameters are given values: prompt patterns
    are compiled by [_get_prompt_pattern] and searched on the literal
    fragment, ANSI stripping is [_strip_ansi], no character name is known
    to the escape codec, and text is decoded on the range of [str]. *)

Module Lab.

Definition text_bytes (t : text) : bytes := map byte_of t.

Definition get_prompt_pattern (prompt class_prompt : str) : Pattern :=
  _get_prompt_pattern class_prompt (Some prompt).

Definition re_search (p : Pattern) (t : text) : bool :=
  match search p (text_bytes t) with
  | Some found => found
  | None => false
  end.

(** [re.sub] of a literal compared without case. *)
Fixpoint remove_literal (lit : bytes) (fuel : nat) (s : bytes) : bytes :=
  match fuel with
  | O => s
  | S fuel' =>
      match s with
      | [] => []
      | c :: s' =>
          if nonempty lit && startswith (lower s) (lower lit)
          then remove_literal lit fuel' (skipn (List.length lit) s)
          else c :: remove_literal lit fuel' s'
      end
  end.

Definition re_sub_MI (source output : bytes) : option bytes :=
  option_map (fun lit => remove_literal lit (List.length output) output)
             (literal_of_source source).

Definition normalize_lines (output : bytes) : bytes :=
  join [NL] (splitlines output).

(** UTF-8 decoding of the code points below 256. *)
Fixpoint bytes_decode (s : bytes) : option str :=
  match s with
  | [] => Some EmptyString
  | c :: s' =>
      if N.ltb (code c) 128
      then option_map (String (chr (code c))) (bytes_decode s')
      else
        match s' with
        | d :: s'' =>
            if in_range 194 195 c && in_range 128 191 d
            then option_map (String (chr (64 * (code c - 192) + (code d - 128))%N))
                            (bytes_decode s'')
            else None
        | [] => None
        end
  end.

Definition unicodedata_lookup (name : bytes) : option N := None.

(** [re.compile] accepts every source made of ordinary bytes,
    backslash-escaped bytes that are not alphanumeric, bars and balanced
    parentheses; these are the sources taken to compile here. *)
Fixpoint groups_balanced (open_groups : nat) (source : bytes) : bool :=
  match source with
  | [] => Nat.eqb open_groups 0
  | c :: rest =>
      if Byte.eqb c x5c then
        match rest with
        | d :: rest' => negb (is_alnum d) && groups_balanced open_groups rest'
        | [] => false
        end
      else if Byte.eqb c x28 then groups_balanced (S open_groups) rest
      else if Byte.eqb c x29 then
        match open_groups with
        | O => false
        | S open_groups' => groups_balanced open_groups' rest
        end
      else if Byte.eqb c x7c then groups_balanced open_groups rest
      else if code_in parser_special c then false
      else groups_balanced open_groups rest
  end.

Definition re_valid (source : bytes) : bool := groups_balanced 0 source.

Definition host : str := "r1".

(** A channel whose prompt is the literal [r1#], with a budget of ten
    reads for each operation. *)
Definition channel : Channel := mkChannel "r1#" (String (chr 10) "") false 10.

Definition send_input :=
  Nssh._send_input get_prompt_pattern re_search re_sub_MI normalize_lines
    _strip_ansi unicodedata_lookup channel.

Definition send_input_interact :=
  Nssh._send_input_interact get_prompt_pattern re_search re_sub_MI normalize_lines
    _strip_ansi unicodedata_lookup channel.

Definition send_inputs_interact :=
  Nssh.send_inputs_interact get_prompt_pattern re_search re_sub_MI normalize_lines
    _strip_ansi bytes_decode unicodedata_lookup host channel.

Definition read_chunk (self : Channel) := Nssh._read_chunk _strip_ansi self.

(** A world at rest: the lock free, nothing recorded yet, and the given
    chunks to come. *)
Definition device (chunks : list bytes) : world := mkWorld false chunks 0 [].

End Lab.

(** ** More of [BaseChannel] *)

(** A value handed to a pattern setter, as far as its type matters. *)
Inductive pyvalue : Type :=
| PyStr (s : str)
| PyBytes (data : bytes)
| PyInt (z : Z)
| PyBool (flag : bool)
| PyNone.

Section Compile.

(** [re.compile] parses its source and raises [re.error] for a source
    that is not a regular expression, an unbalanced parenthesis for
    example. The parser of [re] is a parameter: [re_valid source] tells
    whether it accepts the source. *)
Variable re_valid : bytes -> bool.

(** [re.compile(source, flags=re.I | re.M)] on a source of any origin. *)
Definition re_compile_MI_or_raise (source : bytes) : result Pattern :=
  if re_valid source then Ok (re_compile_MI source) else Raise ReError.

(** The three pattern properties: the getter compiles the stored text
    with [re.I | re.M], and so raises [re.error] where the stored text is
    not a regular expression; the setter stores a [str] and refuses
    anything else with a bare [ScrapliTypeError]. The object mutated is
    the [BaseChannelArgs] of the channel. *)
Definition get_auth_telnet_login_pattern (args : BaseChannelArgs)
  : result Pattern :=
  re_compile_MI_or_raise (encode (auth_telnet_login_pattern args)).

Definition get_auth_password_pattern (args : BaseChannelArgs)
  : result Pattern :=
  re_compile_MI_or_raise (encode (auth_password_pattern args)).

Definition get_auth_passphrase_pattern (args : BaseChannelArgs)
  : result Pattern :=
  re_compile_MI_or_raise (encode (auth_passphrase_pattern args)).

(** [BaseChannel._join_and_compile]: [regex_channel_outputs] is the
    source it builds, empty for [None] and for the empty list, and the
    result is what [re.compile] makes of that source. *)
Definition regex_channel_outputs (channel_outputs : option (list bytes)) : bytes :=
  match channel_outputs with
  | Some (first :: rest) =>
      join (b "|") (map (fun channel_output => b "(" ++ channel_output ++ b ")")
                        (first :: rest))
  | _ => []
  end.

Definition _join_and_compile (channel_outputs : option (list bytes))
  : result Pattern :=
  re_compile_MI_or_raise (regex_channel_outputs channel_outputs).

End Compile.

Definition auth_pattern_setter (f : pattern_field) (value : pyvalue)
  (args : BaseChannelArgs) : result BaseChannelArgs :=
  match value with
  | PyStr v => Ok (set_pattern f v args)
  | _ => Raise (ScrapliTypeError "")
  end.

Definition auth_telnet_login_pattern_setter := auth_pattern_setter AuthTelnetLogin.
Definition auth_password_pattern_setter := auth_pattern_setter AuthPassword.
Definition auth_passphrase_pattern_setter := auth_pattern_setter AuthPassphrase.

(** [bytes.rstrip()] and [bytes.lstrip(chars)]: the first drops the
    trailing ASCII whitespace (space, tab, newline, return, VT, FF), the
    second the leading bytes that occur in [chars]. *)
Definition is_space_byte (c : byte) : bool := code_in [32; 9; 10; 13; 11; 12]%N c.

Fixpoint drop_while (f : byte -> bool) (s : bytes) : bytes :=
  match s with
  | c :: s' => if f c then drop_while f s' else s
  | [] => []
  end.

Definition bytes_rstrip (s : bytes) : bytes :=
  rev (drop_while is_space_byte (rev s)).

Definition bytes_lstrip (chars s : bytes) : bytes :=
  drop_while (fun c => existsb (Byte.eqb c) chars) s.

Section ProcessOutput.

(** [re.sub(pattern, b'', buf)] for a compiled prompt pattern. *)
Variable re_sub_pattern : Pattern -> bytes -> bytes.

Variable args : BaseChannelArgs.

(** [BaseChannel._process_output] *)
Definition _process_output (buf : bytes) (strip_prompt : bool) : bytes :=
  let buf := join [NL] (map bytes_rstrip (splitlines buf)) in
  let buf :=
    if strip_prompt
    then re_sub_pattern (_get_prompt_pattern (comms_prompt_pattern args) None) buf
    else buf in
  bytes_rstrip (bytes_lstrip (encode (comms_return_char args)) buf).

End ProcessOutput.

(** ** Vocabulary of the properties *)

(** [subseq a s]: [a] is [s] with some bytes left out. *)
Inductive subseq : bytes -> bytes -> Prop :=
| subseq_nil : subseq [] []
| subseq_keep (c : byte) (a s : bytes) : subseq a s -> subseq (c :: a) (c :: s)
| subseq_drop (c : byte) (a s : bytes) : subseq a s -> subseq a (c :: s).

(** A row without line end, and a row that in addition has no trailing
    whitespace. *)
Definition no_line_end (row : bytes) : Prop := ~ In NL row /\ ~ In CR row.

Definition clean_row (row : bytes) : Prop :=
  no_line_end row /\ bytes_rstrip row = row.

(** [args'] is [args] with the text [v] in the pattern field [f] and
    every other field as it was. *)
Definition differs_only_in (f : pattern_field) (v : str)
  (args args' : BaseChannelArgs) : Prop :=
  get_pattern f args' = v
  /\ (forall g, g <> f -> get_pattern g args' = get_pattern g args)
  /\ comms_return_char args' = comms_return_char args
  /\ comms_prompt_search_depth args' = comms_prompt_search_depth args
  /\ timeout_ops args' = timeout_ops args
  /\ channel_log args' = channel_log args
  /\ channel_log_mode args' = channel_log_mode args
  /\ channel_lock args' = channel_lock args.

(** The data of the writes recorded in a trace, in order. *)
Fixpoint writes_of (t : list event) : list str :=
  match t with
  | EvWrite data :: t' => data :: writes_of t'
  | _ :: t' => writes_of t'
  | [] => []
  end.

(** The last blocking mode set in a trace, if any. *)
Fixpoint last_blocking (t : list event) (current : option bool) : option bool :=
  match t with
  | EvSetBlocking flag :: t' => last_blocking t' (Some flag)
  | _ :: t' => last_blocking t' current
  | [] => current
  end.

(** What [send_inputs] accepts: one string, or a list or tuple of
    strings; [raw_inputs] is the tuple it iterates over. *)
Inductive inputs_arg : Type :=
| OneString (s : str)
| StringSeq (l : list str).

Definition raw_inputs (inputs : inputs_arg) : list str :=
  match inputs with
  | OneString s => [s]
  | StringSeq l => l
  end.

(** * Examples *)

Example process_read_buf_ex1 :
  _process_read_buf 1000 (mkBytesIO (b "show run
hostname r1
r1#") 0)
  = Ok (b "hostname r1
r1#", mkBytesIO (b "show run
hostname r1
r1#") 24).
Proof. reflexivity. Qed.

Example seek_before_start_ex :
  seek (-5) SEEK_SET (mkBytesIO (b "r1#") 0)
  = Raise (ValueError "negative seek value -5").
Proof. reflexivity. Qed.

Example post_init_ex :
  __post_init__ (set_auth_password_pattern "" default_args)
  = Ok (set_channel_log_mode "w" default_args).
Proof. reflexivity. Qed.

Example ssh_message_ex_cipher :
  _ssh_message_handler
    (b "Unable to negotiate: no matching cipher found. Their offer: aes128-cbc,3des-cbc")
  = Raise (ScrapliAuthenticationFailed
      "No matching cipher found for host, their offer: aes128-cbc,3des-cbc").
Proof. reflexivity. Qed.

Example ssh_message_ex_none :
  _ssh_message_handler (b "Warning: Permanently added host") = Ok tt.
Proof. reflexivity. Qed.

Example get_prompt_pattern_ex :
  pattern_source (_get_prompt_pattern default_comms_prompt_pattern (Some "confirm?"))
  = [x63; x6f; x6e; x66; x69; x72; x6d; x5c; x3f].
Proof. reflexivity. Qed.

Example strip_ansi_ex_colour :
  _strip_ansi ([ESC] ++ b "[31mred" ++ [ESC] ++ b "[0m text") = b "red text".
Proof. vm_compute. reflexivity. Qed.

Example strip_ansi_ex_osc :
  _strip_ansi ([ESC] ++ b "]0;title" ++ [BEL] ++ b "r1#") = b "r1#".
Proof. vm_compute. reflexivity. Qed.

Example strip_ansi_ex_cursor :
  _strip_ansi ([ESC] ++ b "[12;40Hx" ++ [ESC] ++ b "[?25l") = b "x".
Proof. vm_compute. reflexivity. Qed.

(** * The read-buffer window *)

Lemma partition1_spec (sep : byte) (s : bytes) :
  forall before found after,
    partition1 sep s = (before, found, after) ->
    (found = [] /\ after = [] /\ before = s /\ ~ In sep s)
    \/ (found = [sep] /\ s = before ++ sep :: after /\ ~ In sep before).
Proof.
  induction s as [|c s IH]; intros before found after H; simpl in H.
  - inversion H; subst. left. repeat split; auto.
  - destruct (Byte.eqb c sep) eqn:E.
    + apply Byte.byte_dec_bl in E. subst c.
      inversion H; subst. right. repeat split; auto.
    + destruct (partition1 sep s) as [[b0 f0] a0] eqn:P.
      inversion H; subst; clear H.
      assert (Hne : c <> sep) by (apply Byte.eqb_false; exact E).
      destruct (IH b0 found after eq_refl) as [(Hf & Ha & Hb & Hn)|(Hf & Hs & Hn)].
      * left. subst. repeat split; auto.
        intros [Hc|Hin]; [congruence|auto].
      * right. subst s. repeat split; auto.
        intros [Hc|Hin]; [congruence|auto].
Qed.

Lemma process_read_buf_run (depth : Z) (read_buf : BytesIO) :
  exists read_buf',
    _process_read_buf depth read_buf
    = Ok (let '(before, _, after) := partition1 NL (search_window depth read_buf) in
          match after with [] => before | _ => after end,
          read_buf').
Proof.
  unfold _process_read_buf, search_window, seek.
  destruct (read _) as [window io] eqn:R; simpl.
  destruct (partition1 NL window) as [[before found] after].
  destruct after; eexists; reflexivity.
Qed.

Lemma search_window_last_bytes (depth : Z) (read_buf : BytesIO) :
  (0 <= depth)%Z ->
  search_window depth read_buf = last_bytes (Z.to_nat depth) (getvalue read_buf).
Proof.
  intros Hd. unfold search_window, seek, read, last_bytes; simpl.
  f_equal. unfold Zlen. lia.
Qed.

(** C2. Whatever the length of the buffer, [_process_read_buf] returns a
    result and raises nothing: the seek to before the start of a short
    buffer is clamped to the start. The bytes it reads are the last
    [comms_prompt_search_depth] bytes of the buffer, which is the whole
    buffer when the buffer is shorter than the depth; and what it returns
    is a contiguous part of that window. *)
Theorem process_read_buf_window (depth : Z) (read_buf : BytesIO) :
  (0 <= depth)%Z ->
  let buffer := getvalue read_buf in
  let window := last_bytes (Z.to_nat depth) buffer in
  search_window depth read_buf = window
  /\ (exists dropped, buffer = dropped ++ window)
  /\ (List.length buffer <= Z.to_nat depth -> window = buffer)
  /\ (Z.to_nat depth <= List.length buffer -> List.length window = Z.to_nat depth)
  /\ exists search_buf read_buf',
       _process_read_buf depth read_buf = Ok (search_buf, read_buf')
       /\ exists before after, window = before ++ search_buf ++ after.
Proof.
  intros Hd buffer window.
  assert (Hw : search_window depth read_buf = window)
    by (apply search_window_last_bytes; exact Hd).
  split; [exact Hw|]. split; [|split; [|split]].
  - exists (firstn (List.length buffer - Z.to_nat depth) buffer).
    symmetry. apply firstn_skipn.
  - intros Hle. unfold window, last_bytes.
    replace (List.length buffer - Z.to_nat depth) with 0 by lia. reflexivity.
  - intros Hle. unfold window, last_bytes. rewrite length_skipn. lia.
  - destruct (process_read_buf_run depth read_buf) as [read_buf' Hrun].
    rewrite Hw in Hrun.
    destruct (partition1 NL window) as [[before found] after] eqn:P.
    eexists. exists read_buf'. split; [exact Hrun|].
    destruct (partition1_spec _ _ P) as [(Hf & Ha & Hb & _)|(Hf & Hs & _)].
    + subst after before. exists [], []. rewrite app_nil_r. reflexivity.
    + destruct after as [|a after].
      * exists [], [NL]. exact Hs.
      * exists (before ++ [NL]), []. rewrite Hs, app_nil_r, <- app_assoc. reflexivity.
Qed.

Lemma process_read_buf_window_witness :
  let read_buf := mkBytesIO (b "r1#") 3 in
  search_window 1000 read_buf = b "r1#"
  /\ exists search_buf read_buf',
       _process_read_buf 1000 read_buf = Ok (search_buf, read_buf')
       /\ exists before after, b "r1#" = before ++ search_buf ++ after.
Proof.
  intros read_buf.
  destruct (@process_read_buf_window 1000 read_buf ltac:(lia))
    as (Hw & _ & _ & _ & Hrun).
  split; [exact Hw|exact Hrun].
Defined.

(** C3, as the code has it. The window returned is the part of the
    depth-bounded window after its first newline when that part is not
    empty, and then it starts right after a newline of the buffer; when
    the window ends in its only newline, or holds no newline at all, the
    window returned is the first line of the depth-bounded window, which
    starts wherever the depth bound cut the buffer. The window returned
    is empty exactly when the depth-bounded window is empty or is a
    single newline. *)
Theorem process_read_buf_line_start (depth : Z) (read_buf : BytesIO) :
  let window := search_window depth read_buf in
  exists search_buf read_buf',
    _process_read_buf depth read_buf = Ok (search_buf, read_buf')
    /\ ((exists before,
            window = before ++ NL :: search_buf
            /\ ~ In NL before /\ search_buf <> [])
        \/ (window = search_buf ++ [NL] /\ ~ In NL search_buf)
        \/ (window = search_buf /\ ~ In NL search_buf))
    /\ (search_buf = [] <-> window = [] \/ window = [NL]).
Proof.
  intros window.
  destruct (process_read_buf_run depth read_buf) as [read_buf' Hrun].
  fold window in Hrun.
  destruct (partition1 NL window) as [[before found] after] eqn:P.
  eexists. exists read_buf'. split; [exact Hrun|].
  destruct (partition1_spec _ _ P) as [(Hf & Ha & Hb & Hn)|(Hf & Hs & Hn)].
  - subst after before. split.
    + right; right. split; [reflexivity|exact Hn].
    + split; [intros H; left; exact H|].
      intros [H|H]; [exact H|].
      exfalso. apply Hn. rewrite H. left. reflexivity.
  - destruct after as [|a after].
    + split; [right; left; split; [exact Hs|exact Hn]|].
      split.
      * intros H. right. rewrite Hs, H. reflexivity.
      * intros [H|H]; rewrite H in Hs.
        -- destruct before; discriminate Hs.
        -- destruct before as [|c [|d before]];
             [reflexivity|discriminate Hs|discriminate Hs].
    + split.
      * left. exists before. repeat split; [exact Hs|exact Hn|discriminate].
      * split; [intros H; discriminate H|].
        intros [H|H]; rewrite H in Hs.
        -- destruct before; discriminate Hs.
        -- destruct before as [|c [|d before]]; discriminate Hs.
Qed.

(** C3 fails as stated: with a depth of 5 the buffer [hello world], which
    holds no newline, yields the window [world]: not empty, and cut out of
    the middle of the only line. *)
Lemma process_read_buf_mid_line :
  let read_buf := mkBytesIO (b "hello world") 11 in
  exists read_buf',
    _process_read_buf 5 read_buf = Ok (b "world", read_buf')
    /\ b "world" <> []
    /\ ~ exists before after,
           getvalue read_buf = before ++ NL :: b "world" ++ after.
Proof.
  simpl. eexists. split; [reflexivity|]. split; [discriminate|].
  intros (before & after & H).
  assert (Hin : In NL (b "hello world")).
  { rewrite H. apply in_or_app. right. left. reflexivity. }
  vm_compute in Hin. intuition discriminate.
Qed.

(** * Validation of the channel arguments *)

Lemma is_empty_true (s : str) : is_empty s = true <-> s = "".
Proof. destruct s; simpl; split; intros H; congruence. Qed.

Lemma is_empty_false (s : str) : is_empty s = false <-> s <> "".
Proof. destruct s; simpl; split; intros H; congruence. Qed.

(** C9, as the code has it. When construction succeeds (the log mode is
    one of write and append, in any case), each of the three
    authentication patterns supplied as the empty string is replaced by
    its default, a pattern supplied non-empty is kept, and
    [comms_prompt_pattern] is kept as supplied, empty or not. *)
Theorem post_init_auth_pattern_defaults (self : BaseChannelArgs) :
  str_lower (channel_log_mode self) = "write"
  \/ str_lower (channel_log_mode self) = "append" ->
  exists self',
    __post_init__ self = Ok self'
    /\ (forall f, f <> CommsPrompt -> get_pattern f self = "" ->
                  get_pattern f self' = default_pattern f)
    /\ (forall f, get_pattern f self <> "" -> get_pattern f self' = get_pattern f self)
    /\ comms_prompt_pattern self' = comms_prompt_pattern self.
Proof.
  destruct self as [login password passphrase prompt rc depth t lg mode lock].
  simpl. intros Hmode. unfold __post_init__; simpl.
  destruct login, password, passphrase; simpl;
    destruct Hmode as [H|H]; rewrite H; simpl;
    (eexists; split; [reflexivity|]; simpl; split; [|split];
     [ intros [] Hf He; simpl in *; congruence
     | intros [] Hne; simpl in *; congruence
     | reflexivity ]).
Qed.

Lemma post_init_auth_pattern_defaults_witness :
  exists self',
    __post_init__ (set_auth_password_pattern "" default_args) = Ok self'
    /\ auth_password_pattern self' = default_auth_password_pattern.
Proof.
  destruct (@post_init_auth_pattern_defaults
              (set_auth_password_pattern "" default_args)
              (or_introl eq_refl))
    as (self' & Hok & Hdef & _).
  exists self'. split; [exact Hok|].
  apply (Hdef AuthPassword); [discriminate|reflexivity].
Defined.

(** C9 fails as stated: an empty [comms_prompt_pattern] stays empty. *)
Lemma post_init_keeps_empty_prompt_pattern :
  let self := set_pattern CommsPrompt "" default_args in
  get_pattern CommsPrompt self = ""
  /\ exists self',
       __post_init__ self = Ok self'
       /\ get_pattern CommsPrompt self' = ""
       /\ get_pattern CommsPrompt self' <> default_pattern CommsPrompt.
Proof.
  simpl. split; [reflexivity|].
  eexists. split; [reflexivity|]. split; [reflexivity|]. discriminate.
Qed.

(** * The classifier of authentication failures *)

Lemma ssh_message_handler_raises (output : bytes) (msg : str) :
  _ssh_message output = msg -> msg <> "" ->
  _ssh_message_handler output = Raise (ScrapliAuthenticationFailed msg).
Proof.
  intros Hmsg Hne. unfold _ssh_message_handler. rewrite Hmsg.
  apply is_empty_false in Hne. rewrite Hne. reflexivity.
Qed.

(** C5, as the code has it. An output that contains [no route to host]
    (in any case) and none of the substrings of the two rules above it is
    classified as [No route to host], whatever else it contains, the
    substring [permission denied] included. *)
Theorem no_route_to_host_priority (output : bytes) :
  contains (lower output) (b "no route to host") = true ->
  contains (lower output) (b "host key verification failed") = false ->
  contains (lower output) (b "operation timed out") = false ->
  contains (lower output) (b "connection timed out") = false ->
  _ssh_message_handler output
  = Raise (ScrapliAuthenticationFailed "No route to host").
Proof.
  intros Hroute Hkey Hop Hconn.
  apply ssh_message_handler_raises; [|discriminate].
  unfold _ssh_message. rewrite Hkey, Hop, Hconn, Hroute. reflexivity.
Qed.

Lemma no_route_to_host_priority_witness :
  _ssh_message_handler
    (b "ssh: connect to host r1 port 22: No route to host. Permission denied")
  = Raise (ScrapliAuthenticationFailed "No route to host").
Proof.
  apply no_route_to_host_priority; reflexivity.
Defined.

(** C5 fails as stated: an output with both substrings that also matches
    the first rule is classified by the first rule. *)
Lemma no_route_to_host_outranked :
  let output :=
    b "host key verification failed; no route to host; permission denied" in
  contains output (b "no route to host") = true
  /\ contains output (b "permission denied") = true
  /\ _ssh_message_handler output
     = Raise (ScrapliAuthenticationFailed "Host key verification failed")
  /\ _ssh_message_handler output
     <> Raise (ScrapliAuthenticationFailed "No route to host").
Proof.
  simpl. repeat split; try reflexivity. discriminate.
Qed.

(** The last rule: the message is [str(output)]. *)
Lemma permission_denied_message (output : bytes) :
  contains (lower output) (b "host key verification failed") = false ->
  contains (lower output) (b "operation timed out") = false ->
  contains (lower output) (b "connection timed out") = false ->
  contains (lower output) (b "no route to host") = false ->
  contains (lower output) (b "no matching host key") = false ->
  contains (lower output) (b "no matching key exchange") = false ->
  contains (lower output) (b "no matching cipher") = false ->
  contains (lower output) (b "bad configuration") = false ->
  contains output (b "WARNING: UNPROTECTED PRIVATE KEY FILE!") = false ->
  contains (lower output) (b "could not resolve hostname") = false ->
  contains (lower output) (b "permission denied") = true ->
  _ssh_message output = bytes_repr output.
Proof.
  intros H1 H2 H3 H4 H5 H6 H7 H8 H9 H10 H11.
  unfold _ssh_message.
  rewrite H1, H2, H3, H4, H5, H6, H7, H8, H9, H10, H11. reflexivity.
Qed.

(** C6 at its own example. For the output
    [Permission denied, please try again.] the message raised is the
    [bytes] representation of the output, with the leading [b] and the
    quotes around it, not the text itself. *)
Theorem permission_denied_message_is_repr :
  let output := b "Permission denied, please try again." in
  _ssh_message_handler output
  = Raise (ScrapliAuthenticationFailed "b'Permission denied, please try again.'")
  /\ _ssh_message_handler output
     <> Raise (ScrapliAuthenticationFailed "Permission denied, please try again.").
Proof.
  simpl. split; [reflexivity|discriminate].
Qed.

(** * Prompt patterns *)

Lemma escaped_byte_is_not_alnum (c : byte) :
  code_in escape_special c = true -> is_alnum c = false.
Proof. destruct c; vm_compute; intros H; solve [reflexivity | discriminate H]. Qed.

Lemma plain_byte_reads_as_itself (c : byte) :
  code_in escape_special c = false ->
  Byte.eqb c x5c = false /\ code_in parser_special c = false.
Proof.
  destruct c; vm_compute; intros H;
    solve [split; reflexivity | discriminate H].
Qed.

(** What [re.escape] returns is read back by the parser as the literal. *)
Lemma literal_of_escaped (s : bytes) :
  literal_of_source (re_escape s) = Some s.
Proof.
  induction s as [|c s IH]; [reflexivity|].
  unfold re_escape in *. cbn [flat_map].
  destruct (code_in escape_special c) eqn:E; cbn [app].
  - change (literal_of_source (x5c :: c :: flat_map
              (fun c => if code_in escape_special c then [x5c; c] else [c]) s))
      with (if is_alnum c then None
            else option_map (cons c) (literal_of_source (flat_map
              (fun c => if code_in escape_special c then [x5c; c] else [c]) s))).
    rewrite (escaped_byte_is_not_alnum c E), IH. reflexivity.
  - destruct (plain_byte_reads_as_itself c E) as [H1 H2].
    cbn [literal_of_source]. rewrite H1, H2, IH. reflexivity.
Qed.

(** C7, as the code has it. A non-empty override that does not both
    begin with the start-of-line marker and end with the end-of-line
    marker is compiled from its escaped form with no flag at all: the
    pattern denotes the override as a literal, and it is found in a text
    exactly when the override occurs in it byte for byte, case included,
    at any place. *)
Theorem get_prompt_pattern_literal (class_pattern pattern : str) :
  pattern <> "" ->
  startswith (encode pattern) (b "^") && endswith (encode pattern) (b "$") = false ->
  let compiled := _get_prompt_pattern class_pattern (Some pattern) in
  compiled = re_compile (re_escape (encode pattern))
  /\ flag_M compiled = false /\ flag_I compiled = false
  /\ literal_of_source (pattern_source compiled) = Some (encode pattern)
  /\ forall text, search compiled text = Some (contains text (encode pattern)).
Proof.
  intros Hne Hanch. simpl.
  apply is_empty_false in Hne.
  unfold _get_prompt_pattern. rewrite Hne, Hanch.
  repeat split.
  - apply literal_of_escaped.
  - intros text. unfold search; simpl. rewrite literal_of_escaped. reflexivity.
Qed.

Lemma get_prompt_pattern_literal_witness :
  search (_get_prompt_pattern default_comms_prompt_pattern (Some "confirm?"))
         (b "Proceed with reload? confirm? [y/n]")
  = Some true.
Proof.
  destruct (@get_prompt_pattern_literal default_comms_prompt_pattern "confirm?"
              ltac:(discriminate) eq_refl) as (_ & _ & _ & _ & Hsearch).
  rewrite Hsearch. reflexivity.
Defined.

(** C7 fails as stated: the literal is matched with its case. The
    override [confirm?] is not found in a text that shows it in capitals,
    where a search without case would find it. *)
Lemma get_prompt_pattern_case_sensitive :
  let compiled := _get_prompt_pattern default_comms_prompt_pattern (Some "confirm?") in
  let text := b "Proceed with reload? CONFIRM? [y/n]" in
  contains (lower text) (lower (encode "confirm?")) = true
  /\ search compiled text = Some false
  /\ flag_I compiled = false.
Proof. simpl. repeat split; reflexivity. Qed.

(** An empty override is no override: the class pattern is compiled. *)
Lemma get_prompt_pattern_empty_override (class_pattern : str) :
  _get_prompt_pattern class_pattern (Some "")
  = _get_prompt_pattern class_pattern None.
Proof. reflexivity. Qed.

(** * ANSI stripping *)

Lemma match_here_needs_lead (c : byte) (s : bytes) :
  ansi_lead c = false -> match_here ANSI_ESCAPE_PATTERN (c :: s) = None.
Proof.
  intros H. unfold match_here, ANSI_ESCAPE_PATTERN. simpl. rewrite H. reflexivity.
Qed.

Lemma re_sub_empty_no_lead (fuel : nat) (buf : bytes) :
  existsb ansi_lead buf = false ->
  re_sub_empty ANSI_ESCAPE_PATTERN fuel buf = buf.
Proof.
  revert buf. induction fuel as [|fuel IH]; intros buf H; [reflexivity|].
  destruct buf as [|c buf]; [reflexivity|].
  simpl in H. apply orb_false_iff in H. destruct H as [Hc Hbuf].
  cbn [re_sub_empty]. rewrite (match_here_needs_lead c buf Hc).
  rewrite (IH buf Hbuf). reflexivity.
Qed.

Lemma strip_ansi_no_lead (buf : bytes) :
  existsb ansi_lead buf = false -> _strip_ansi buf = buf.
Proof. intros H. apply re_sub_empty_no_lead. exact H. Qed.

(** C4, as the code has it. Stripping is one pass from left to right. It
    leaves unchanged a buffer that holds neither of the two lead bytes, so
    stripping twice equals stripping once whenever the first pass leaves
    no lead byte behind. *)
Theorem strip_ansi_idempotent_without_lead (x : bytes) :
  existsb ansi_lead (_strip_ansi x) = false ->
  _strip_ansi (_strip_ansi x) = _strip_ansi x.
Proof. intros H. apply strip_ansi_no_lead. exact H. Qed.

Lemma strip_ansi_idempotent_without_lead_witness :
  let x := [ESC] ++ b "[31mred" ++ [ESC] ++ b "[0m text" in
  _strip_ansi (_strip_ansi x) = _strip_ansi x.
Proof.
  intros x. apply strip_ansi_idempotent_without_lead. vm_compute. reflexivity.
Defined.

(** C4 fails as stated: a lead byte that starts no sequence is kept by
    the first pass, and the removal of the sequence after it brings it
    next to bytes that complete it, which the second pass removes. *)
Lemma strip_ansi_not_idempotent :
  let x := [ESC; ESC] ++ b "[31m[0m" in
  _strip_ansi x = [ESC] ++ b "[0m"
  /\ _strip_ansi (_strip_ansi x) = []
  /\ _strip_ansi (_strip_ansi x) <> _strip_ansi x.
Proof.
  assert (H1 : _strip_ansi ([ESC; ESC] ++ b "[31m[0m") = [ESC] ++ b "[0m")
    by (vm_compute; reflexivity).
  assert (H2 : _strip_ansi ([ESC] ++ b "[0m") = []) by (vm_compute; reflexivity).
  cbv zeta. rewrite H1, H2. repeat split. discriminate.
Qed.

(** * The channel operations *)

Section ChannelFacts.

Variable pattern_t : Type.
Variable get_prompt_pattern : str -> str -> pattern_t.
Variable re_search : pattern_t -> text -> bool.
Variable re_sub_MI : bytes -> bytes -> option bytes.
Variable normalize_lines : bytes -> bytes.
Variable strip_ansi : bytes -> bytes.
Variable bytes_decode : bytes -> option str.
Variable unicodedata_lookup : bytes -> option N.
Variable host : str.
Variable self : Channel.

Local Abbreviation read_chunk := (Nssh._read_chunk strip_ansi self).
Local Abbreviation chunk_of := (Nssh.chunk_of strip_ansi self).
Local Abbreviation chunks_of := (Nssh.chunks_of strip_ansi self).
Local Abbreviation input_loop := (Nssh.read_until_input_loop strip_ansi self).
Local Abbreviation prompt_loop :=
  (Nssh.read_until_prompt_loop re_search strip_ansi unicodedata_lookup self).
Local Abbreviation read_until_input := (Nssh._read_until_input strip_ansi self).
Local Abbreviation read_until_prompt :=
  (Nssh._read_until_prompt get_prompt_pattern re_search strip_ansi
     unicodedata_lookup self).
Local Abbreviation restructure_output :=
  (Nssh._restructure_output re_sub_MI normalize_lines self).
Local Abbreviation send_input_body :=
  (Nssh._send_input_body get_prompt_pattern re_search re_sub_MI normalize_lines
     strip_ansi unicodedata_lookup self).
Local Abbreviation send_input :=
  (Nssh._send_input get_prompt_pattern re_search re_sub_MI normalize_lines
     strip_ansi unicodedata_lookup self).

Local Abbreviation prompt_seen :=
  (Nssh.prompt_seen get_prompt_pattern re_search unicodedata_lookup self).

Lemma read_chunk_run (w : world) :
  read_chunk w
  = match clock w with
    | O => Expired w
    | S t =>
        let raw := match incoming w with chunk :: _ => chunk | [] => [] end in
        Done (chunk_of raw)
             (log (EvRead raw) (mkWorld (locked w) (tl (incoming w)) t (trace w)))
    end.
Proof.
  unfold Nssh._read_chunk, bind, Transport.read, Nssh.chunk_of, ret.
  destruct (clock w); [reflexivity|].
  destruct (incoming w); reflexivity.
Qed.

Lemma chunks_of_snoc (raws : list bytes) (raw : bytes) :
  chunks_of (raws ++ [raw]) = chunks_of raws ++ chunk_of raw.
Proof.
  unfold Nssh.chunks_of. rewrite map_app, concat_app. simpl.
  rewrite app_nil_r. reflexivity.
Qed.

Lemma chunks_of_cons (raws : list bytes) (raw : bytes) :
  chunks_of (raw :: raws) = chunk_of raw ++ chunks_of raws.
Proof. reflexivity. Qed.

Lemma input_loop_run (turns : nat) (channel_input : bytes) :
  forall output w,
    match input_loop turns channel_input output w with
    | Done output' w' =>
        locked w' = locked w
        /\ contains output' channel_input = true
        /\ exists raws,
             trace w' = trace w ++ map EvRead raws
             /\ output' = output ++ chunks_of raws
    | Failed _ _ => False
    | Expired w' => locked w' = locked w
    end.
Proof.
  induction turns as [|turns IH]; intros output w; simpl.
  - destruct (contains output channel_input) eqn:E; unfold ret; simpl.
    + repeat split; auto. exists []. simpl. rewrite !app_nil_r. auto.
    + reflexivity.
  - destruct (contains output channel_input) eqn:E; unfold ret; simpl.
    + repeat split; auto. exists []. simpl. rewrite !app_nil_r. auto.
    + unfold bind. rewrite read_chunk_run.
      destruct (clock w) as [|t]; [reflexivity|]. cbv zeta.
      set (raw := match incoming w with chunk :: _ => chunk | [] => [] end).
      set (w1 := log (EvRead raw) _).
      specialize (IH (output ++ chunk_of raw) w1).
      destruct (input_loop turns channel_input (output ++ chunk_of raw) w1)
        as [output' w'|e w'|w']; auto.
      destruct IH as (Hl & Hc & raws & Ht & Ho).
      repeat split; auto.
      exists (raw :: raws). rewrite Ht, Ho. simpl.
      rewrite chunks_of_cons, <- !app_assoc. auto.
Qed.


Lemma prompt_loop_run (turns : nat) (prompt : str) :
  forall output w,
    match prompt_loop turns
            (get_prompt_pattern prompt (ch_comms_prompt_pattern self)) output w with
    | Done output' w' =>
        locked w' = locked w
        /\ prompt_seen prompt output'
        /\ exists raws,
             trace w' = trace w ++ map EvRead raws ++ [EvSetBlocking true]
             /\ output' = output ++ chunks_of raws
    | Failed e w' => e = UnicodeDecodeError /\ locked w' = locked w
    | Expired w' => locked w' = locked w
    end.
Proof.
  set (pat := get_prompt_pattern prompt (ch_comms_prompt_pattern self)).
  induction turns as [|turns IH]; intros output w; simpl; [reflexivity|].
  unfold bind at 1. rewrite read_chunk_run.
  destruct (clock w) as [|t]; [reflexivity|]. cbv zeta.
  set (raw := match incoming w with chunk :: _ => chunk | [] => [] end).
  set (w1 := log (EvRead raw) _).
  cbv beta iota.
  destruct (decode_unicode_escape unicodedata_lookup (output ++ chunk_of raw))
    as [decoded|] eqn:D.
  - destruct (re_search pat (cr_to_nl (strip decoded))) eqn:S.
    + unfold bind, Transport.set_blocking, ret; simpl.
      split; [reflexivity|]. split.
      * exists decoded. auto.
      * exists [raw]. simpl. rewrite <- app_assoc.
        unfold Nssh.chunks_of; simpl. rewrite app_nil_r. auto.
    + specialize (IH (output ++ chunk_of raw) w1).
      destruct (prompt_loop turns pat (output ++ chunk_of raw) w1)
        as [output' w'|e w'|w']; auto.
      destruct IH as (Hl & Hp & raws & Ht & Ho).
      repeat split; auto.
      exists (raw :: raws). rewrite Ht, Ho. simpl.
      rewrite chunks_of_cons, <- !app_assoc. auto.
  - unfold fail. simpl. auto.
Qed.

Lemma read_until_input_run (channel_input : bytes) (w : world) :
  match read_until_input channel_input w with
  | Done output w' =>
      locked w' = locked w
      /\ contains output channel_input = true
      /\ exists raws,
           trace w' = trace w ++ map EvRead raws /\ output = chunks_of raws
  | Failed _ _ => False
  | Expired w' => locked w' = locked w
  end.
Proof.
  unfold Nssh._read_until_input.
  exact (input_loop_run (S (clock w)) channel_input [] w).
Qed.

Lemma read_until_prompt_run (prompt : str) (w : world) :
  match read_until_prompt [] prompt w with
  | Done output w' =>
      locked w' = locked w
      /\ prompt_seen prompt output
      /\ exists raws,
           trace w' = trace w ++ [EvSetBlocking false] ++ map EvRead raws
                      ++ [EvSetBlocking true]
           /\ output = chunks_of raws
  | Failed e w' => e = UnicodeDecodeError /\ locked w' = locked w
  | Expired w' => locked w' = locked w
  end.
Proof.
  unfold Nssh._read_until_prompt, bind, Transport.set_blocking.
  set (w1 := log (EvSetBlocking false) w).
  pose proof (prompt_loop_run (S (clock w1)) prompt [] w1) as H.
  destruct (prompt_loop (S (clock w1))
              (get_prompt_pattern prompt (ch_comms_prompt_pattern self)) [] w1)
    as [output w'|e w'|w'];
    simpl in H |- *; auto.
  destruct H as (Hl & Hp & raws & Ht & Ho).
  repeat split; auto.
  exists raws. rewrite Ht. simpl. rewrite <- app_assoc. auto.
Qed.

Lemma restructure_output_run (output : bytes) (strip_prompt : bool) (w : world) :
  match restructure_output output strip_prompt w with
  | Done _ w' => w' = w
  | Failed e w' => e = ReError /\ w' = w
  | Expired _ => False
  end.
Proof.
  unfold Nssh._restructure_output.
  destruct strip_prompt; simpl; [|reflexivity].
  destruct (re_sub_MI _ _); simpl; auto.
Qed.


Local Abbreviation return_char := (ch_comms_return_char self).

Lemma send_input_body_run (channel_input : str) (strip_prompt : bool) (w : world) :
  locked w = false ->
  match send_input_body channel_input strip_prompt w with
  | Done (output, _) w' =>
      locked w' = false
      /\ exists echo reads,
           trace w' = trace w
                      ++ [EvAcquire; EvFlush; EvWrite channel_input]
                      ++ map EvRead echo
                      ++ [EvFlush; EvWrite return_char; EvSetBlocking false]
                      ++ map EvRead reads
                      ++ [EvSetBlocking true; EvRelease]
           /\ contains (chunks_of echo) (encode channel_input) = true
           /\ output = chunks_of reads
           /\ prompt_seen "" output
  | Failed e w' =>
      (e = UnicodeDecodeError /\ locked w' = true)
      \/ (e = ReError /\ locked w' = false)
  | Expired w' => locked w' = true
  end.
Proof.
  intros Hfree.
  unfold Nssh._send_input_body, Nssh._send_return.
  unfold bind at 1. unfold Transport.session_lock_acquire. rewrite Hfree.
  unfold bind at 1. unfold Transport.flush at 1.
  unfold bind at 1. unfold Transport.write at 1.
  set (w1 := log (EvWrite channel_input) _).
  assert (Hl1 : locked w1 = true) by reflexivity.
  assert (Ht1 : trace w1 = trace w ++ [EvAcquire; EvFlush; EvWrite channel_input])
    by (unfold w1; simpl; rewrite <- !app_assoc; reflexivity).
  clearbody w1.
  unfold bind at 1.
  pose proof (read_until_input_run (encode channel_input) w1) as H1.
  destruct (read_until_input (encode channel_input) w1) as [out1 w2|e w2|w2];
    [|contradiction|congruence].
  destruct H1 as (Hl2 & Hecho & echo & Ht2 & Ho1).
  unfold bind at 1. unfold bind at 1.
  unfold Transport.flush at 1, Transport.write at 1.
  set (w3 := log (EvWrite return_char) _).
  assert (Hl3 : locked w3 = true) by (unfold w3; simpl; congruence).
  assert (Ht3 : trace w3 = trace w2 ++ [EvFlush; EvWrite return_char])
    by (unfold w3; simpl; rewrite <- !app_assoc; reflexivity).
  clearbody w3.
  unfold bind at 1.
  pose proof (read_until_prompt_run "" w3) as H2.
  destruct (read_until_prompt [] "" w3) as [output w4|e w4|w4];
    [|left; destruct H2; split; congruence|congruence].
  destruct H2 as (Hl4 & Hseen & reads & Ht4 & Ho).
  unfold bind at 1. unfold Transport.session_lock_release.
  rewrite Hl4, Hl3.
  set (w5 := log EvRelease _).
  unfold bind at 1.
  pose proof (restructure_output_run output strip_prompt w5) as H3.
  destruct (restructure_output output strip_prompt w5) as [processed w6|e w6|w6];
    [|right; destruct H3; subst; split; reflexivity|contradiction].
  subst w6. unfold ret. split; [reflexivity|].
  exists echo, reads. repeat split; auto.
  - unfold w5; simpl. rewrite Ht4, Ht3, Ht2, Ht1. rewrite <- !app_assoc. reflexivity.
  - congruence.
Qed.


Local Abbreviation send_input_interact_body :=
  (Nssh._send_input_interact_body get_prompt_pattern re_search re_sub_MI
     normalize_lines strip_ansi unicodedata_lookup self).
Local Abbreviation send_input_interact :=
  (Nssh._send_input_interact get_prompt_pattern re_search re_sub_MI
     normalize_lines strip_ansi unicodedata_lookup self).
Local Abbreviation send_inputs_interact :=
  (Nssh.send_inputs_interact get_prompt_pattern re_search re_sub_MI
     normalize_lines strip_ansi bytes_decode unicodedata_lookup host self).

Lemma send_input_interact_body_run
  (channel_input expectation response finale : str) (hidden_response : bool)
  (w : world) :
  locked w = false ->
  match send_input_interact_body channel_input expectation response finale
          hidden_response w with
  | Done (output, _) w' =>
      locked w' = false
      /\ exists echo reads1 reads2,
           trace w' = trace w
                      ++ [EvAcquire; EvFlush; EvWrite channel_input]
                      ++ map EvRead echo
                      ++ [EvFlush; EvWrite return_char; EvSetBlocking false]
                      ++ map EvRead reads1
                      ++ [EvSetBlocking true; EvWrite response;
                          EvFlush; EvWrite return_char; EvSetBlocking false]
                      ++ map EvRead reads2
                      ++ [EvSetBlocking true; EvRelease]
           /\ contains (chunks_of echo) (encode channel_input) = true
           /\ prompt_seen expectation (chunks_of reads1)
           /\ prompt_seen finale (chunks_of reads2)
           /\ output = chunks_of reads1
                       ++ (if is_empty response || hidden_response
                           then encode return_char else [])
                       ++ chunks_of reads2
  | Failed e w' =>
      (e = UnicodeDecodeError /\ locked w' = true)
      \/ (e = ReError /\ locked w' = false)
  | Expired w' => locked w' = true
  end.
Proof.
  intros Hfree.
  unfold Nssh._send_input_interact_body, Nssh._send_return.
  unfold bind at 1. unfold Transport.session_lock_acquire. rewrite Hfree.
  unfold bind at 1. unfold Transport.flush at 1.
  unfold bind at 1. unfold Transport.write at 1.
  set (w1 := log (EvWrite channel_input) _).
  assert (Hl1 : locked w1 = true) by reflexivity.
  assert (Ht1 : trace w1 = trace w ++ [EvAcquire; EvFlush; EvWrite channel_input])
    by (unfold w1; simpl; rewrite <- !app_assoc; reflexivity).
  clearbody w1.
  unfold bind at 1.
  pose proof (read_until_input_run (encode channel_input) w1) as H1.
  destruct (read_until_input (encode channel_input) w1) as [out1 w2|e w2|w2];
    [|contradiction|congruence].
  destruct H1 as (Hl2 & Hecho & echo & Ht2 & Ho1).
  unfold bind at 1. unfold bind at 1.
  unfold Transport.flush at 1, Transport.write at 1.
  set (w3 := log (EvWrite return_char) _).
  assert (Hl3 : locked w3 = true) by (unfold w3; simpl; congruence).
  assert (Ht3 : trace w3 = trace w2 ++ [EvFlush; EvWrite return_char])
    by (unfold w3; simpl; rewrite <- !app_assoc; reflexivity).
  clearbody w3.
  unfold bind at 1.
  pose proof (read_until_prompt_run expectation w3) as H2.
  destruct (read_until_prompt [] expectation w3) as [output1 w4|e w4|w4];
    [|left; destruct H2; split; congruence|congruence].
  destruct H2 as (Hl4 & Hseen1 & reads1 & Ht4 & Ho2).
  cbv zeta.
  unfold bind at 1. unfold Transport.write at 1.
  unfold bind at 1. unfold bind at 1.
  unfold Transport.flush at 1, Transport.write at 1.
  set (w5 := log (EvWrite return_char) _).
  assert (Hl5 : locked w5 = true) by (unfold w5; simpl; congruence).
  assert (Ht5 : trace w5 = trace w4 ++ [EvWrite response; EvFlush; EvWrite return_char])
    by (unfold w5; simpl; rewrite <- !app_assoc; reflexivity).
  clearbody w5.
  unfold bind at 1.
  pose proof (read_until_prompt_run finale w5) as H3.
  destruct (read_until_prompt [] finale w5) as [output2 w6|e w6|w6];
    [|left; destruct H3; split; congruence|congruence].
  destruct H3 as (Hl6 & Hseen2 & reads2 & Ht6 & Ho3).
  unfold bind at 1. unfold Transport.session_lock_release.
  rewrite Hl6, Hl5.
  set (w7 := log EvRelease _).
  unfold bind at 1.
  match goal with
  | |- context [restructure_output ?o false w7] =>
      pose proof (restructure_output_run o false w7) as H4;
      destruct (restructure_output o false w7) as [processed w8|e w8|w8] eqn:R;
      [|right; destruct H4; subst; split; reflexivity|contradiction]
  end.
  subst w8. unfold ret. split; [reflexivity|].
  exists echo, reads1, reads2. split; [|split; [|split; [|split]]].
  - unfold w7; simpl. rewrite Ht6, Ht5, Ht4, Ht3, Ht2, Ht1.
    rewrite <- !app_assoc. reflexivity.
  - congruence.
  - congruence.
  - congruence.
  - subst output1 output2.
    destruct (is_empty response); simpl.
    + rewrite <- app_assoc. reflexivity.
    + destruct hidden_response; simpl; rewrite <- ?app_assoc; reflexivity.
Qed.


(** Every way [_send_input] ends, from a world in which the lock is free. *)
Lemma send_input_run (channel_input : str) (strip_prompt : bool) (w : world) :
  locked w = false ->
  match send_input channel_input strip_prompt w with
  | Done (output, _) w' =>
      locked w' = false
      /\ exists echo reads,
           trace w' = trace w
                      ++ [EvAcquire; EvFlush; EvWrite channel_input]
                      ++ map EvRead echo
                      ++ [EvFlush; EvWrite return_char; EvSetBlocking false]
                      ++ map EvRead reads
                      ++ [EvSetBlocking true; EvRelease]
           /\ output = chunks_of reads
  | Failed e w' =>
      (e = OperationTimeout /\ locked w' = false)
      \/ (e = UnicodeDecodeError /\ locked w' = true)
      \/ (e = ReError /\ locked w' = false)
  | Expired _ => False
  end.
Proof.
  intros Hfree. unfold Nssh._send_input, Nssh.operation_timeout.
  set (w0 := mkWorld (locked w) (incoming w) (ch_timeout_ops self) (trace w)).
  pose proof (@send_input_body_run channel_input strip_prompt w0 Hfree) as H.
  destruct (send_input_body channel_input strip_prompt w0)
    as [[output processed] w'|e w'|w'].
  - destruct H as (Hl & echo & reads & Ht & _ & Ho & _).
    split; [exact Hl|]. exists echo, reads. split; [exact Ht|exact Ho].
  - destruct H as [H|H]; [right; left|right; right]; exact H.
  - left. rewrite H. split; reflexivity.
Qed.

(** Every way [_send_input_interact] ends, from a world in which the lock
    is free. *)
Lemma send_input_interact_run
  (channel_input expectation response finale : str) (hidden_response : bool)
  (w : world) :
  locked w = false ->
  match send_input_interact channel_input expectation response finale
          hidden_response w with
  | Done (output, _) w' =>
      locked w' = false
      /\ exists echo reads1 reads2,
           trace w' = trace w
                      ++ [EvAcquire; EvFlush; EvWrite channel_input]
                      ++ map EvRead echo
                      ++ [EvFlush; EvWrite return_char; EvSetBlocking false]
                      ++ map EvRead reads1
                      ++ [EvSetBlocking true; EvWrite response;
                          EvFlush; EvWrite return_char; EvSetBlocking false]
                      ++ map EvRead reads2
                      ++ [EvSetBlocking true; EvRelease]
           /\ contains (chunks_of echo) (encode channel_input) = true
           /\ prompt_seen expectation (chunks_of reads1)
           /\ prompt_seen finale (chunks_of reads2)
           /\ output = chunks_of reads1
                       ++ (if is_empty response || hidden_response
                           then encode return_char else [])
                       ++ chunks_of reads2
  | Failed e w' =>
      (e = OperationTimeout /\ locked w' = false)
      \/ (e = UnicodeDecodeError /\ locked w' = true)
      \/ (e = ReError /\ locked w' = false)
  | Expired _ => False
  end.
Proof.
  intros Hfree. unfold Nssh._send_input_interact, Nssh.operation_timeout.
  set (w0 := mkWorld (locked w) (incoming w) (ch_timeout_ops self) (trace w)).
  pose proof (@send_input_interact_body_run channel_input expectation response
                finale hidden_response w0 Hfree) as H.
  destruct (send_input_interact_body channel_input expectation response finale
              hidden_response w0) as [[output processed] w'|e w'|w'].
  - exact H.
  - destruct H as [H|H]; [right; left|right; right]; exact H.
  - left. rewrite H. split; reflexivity.
Qed.

(** C8, as the code has it. [send_inputs_interact] runs one stage, given
    as a list or tuple of four strings. When the call completes, the
    transport has seen, in this order and under one acquire and release of
    the lock: the input written, the reads that absorb its echo, the
    return character, the reads up to the expectation, the response
    written, the return character, and the reads up to the finale. A list
    or tuple of stage tuples is not run stage by stage: the call fails at
    once, with nothing written and the lock not taken. *)
Theorem send_inputs_interact_single_stage (hidden_response : bool) (w : world) :
  locked w = false ->
  (forall channel_input expectation response finale results w',
      send_inputs_interact (Strings [channel_input; expectation; response; finale])
        hidden_response w = Done results w' ->
      locked w' = false
      /\ exists echo reads1 reads2,
           trace w' = trace w
                      ++ [EvAcquire; EvFlush; EvWrite channel_input]
                      ++ map EvRead echo
                      ++ [EvFlush; EvWrite return_char; EvSetBlocking false]
                      ++ map EvRead reads1
                      ++ [EvSetBlocking true; EvWrite response;
                          EvFlush; EvWrite return_char; EvSetBlocking false]
                      ++ map EvRead reads2
                      ++ [EvSetBlocking true; EvRelease]
           /\ contains (chunks_of echo) (encode channel_input) = true
           /\ prompt_seen expectation (chunks_of reads1)
           /\ prompt_seen finale (chunks_of reads2)
           /\ List.length results = 1)
  /\ (forall stages,
        exists e w',
          send_inputs_interact (Stages stages) hidden_response w = Failed e w'
          /\ trace w' = trace w /\ locked w' = false
          /\ e = if Nat.eqb (List.length stages) 4
                 then AttributeError "'tuple' object has no attribute 'encode'"
                 else ValueError (unpack4_message (List.length stages))).
Proof.
  intros Hfree. split.
  - intros channel_input expectation response finale results w' Hrun.
    unfold Nssh.send_inputs_interact in Hrun. unfold bind at 1 in Hrun.
    pose proof (@send_input_interact_run channel_input expectation response
                  finale hidden_response w Hfree) as H.
    destruct (send_input_interact channel_input expectation response finale
                hidden_response w) as [[output processed] w1|e w1|w1];
      try discriminate Hrun.
    unfold Nssh.decode_or_fail, bind, ret, fail in Hrun.
    destruct (bytes_decode output); try discriminate Hrun.
    destruct (bytes_decode processed); try discriminate Hrun.
    inversion Hrun; subst; clear Hrun.
    destruct H as (Hl & echo & reads1 & reads2 & Ht & He & H1 & H2 & _).
    split; [exact Hl|]. exists echo, reads1, reads2. repeat split; auto.
  - intros stages. unfold Nssh.send_inputs_interact, fail.
    destruct stages as [|s1 [|s2 [|s3 [|s4 [|s5 rest]]]]];
      eexists; eexists; (split; [reflexivity|]); simpl; auto.
Qed.

(** C10. With [comms_ansi] enabled, [_read_chunk] returns whenever the
    read of the transport returns, and what it returns is the bytes read
    followed by their ANSI-stripped copy: the bytes read are a prefix of
    the chunk, no byte of them is removed, and a chunk that stripping
    leaves unchanged comes out twice in a row. The read loops append the
    chunk as it is to the output they accumulate. *)
Theorem read_chunk_ansi_appends_stripped_copy (w : world) :
  ch_comms_ansi self = true ->
  match Transport.read w with
  | Done raw w' =>
      read_chunk w = Done (raw ++ strip_ansi raw) w'
      /\ (strip_ansi raw = raw -> read_chunk w = Done (raw ++ raw) w')
      /\ List.length raw <= List.length (raw ++ strip_ansi raw)
      /\ (forall turns channel_input output,
            contains output channel_input = false ->
            input_loop (S turns) channel_input output w
            = input_loop turns channel_input
                (output ++ raw ++ strip_ansi raw) w')
      /\ (forall turns pat output,
            prompt_loop (S turns) pat output w
            = let output' := output ++ raw ++ strip_ansi raw in
              match decode_unicode_escape unicodedata_lookup output' with
              | None => Failed UnicodeDecodeError w'
              | Some decoded =>
                  if re_search pat (cr_to_nl (strip decoded))
                  then Done output' (log (EvSetBlocking true) w')
                  else prompt_loop turns pat output' w'
              end)
  | Failed e w' => read_chunk w = Failed e w'
  | Expired w' => read_chunk w = Expired w'
  end.
Proof.
  intros Hansi.
  destruct (Transport.read w) as [raw w'|e w'|w'] eqn:R.
  - assert (Hrun : read_chunk w = Done (raw ++ strip_ansi raw) w')
      by (unfold Nssh._read_chunk, bind, ret; rewrite R, Hansi; reflexivity).
    split; [exact Hrun|]. split; [|split; [|split]].
    + intros Hsame. rewrite Hrun, Hsame. reflexivity.
    + rewrite length_app. lia.
    + intros turns channel_input output Hnot. simpl.
      rewrite Hnot. unfold bind at 1. rewrite Hrun. reflexivity.
    + intros turns pat output. simpl.
      unfold bind at 1. rewrite Hrun. cbv beta iota zeta.
      destruct (decode_unicode_escape unicodedata_lookup
                  (output ++ raw ++ strip_ansi raw)) as [decoded|];
        [|reflexivity].
      destruct (re_search pat (cr_to_nl (strip decoded))); reflexivity.
  - unfold Nssh._read_chunk, bind. rewrite R. reflexivity.
  - unfold Nssh._read_chunk, bind. rewrite R. reflexivity.
Qed.

End ChannelFacts.

(** * The channel operations, run on a device *)

Lemma send_inputs_interact_single_stage_witness :
  let w := Lab.device [b "enable"; NL :: b "Password:"; NL :: b "r1#"] in
  exists results w',
    Lab.send_inputs_interact (Strings ["enable"; "assword:"; "secret"; "r1#"])
      true w = Done results w'
    /\ locked w' = false
    /\ exists echo reads1 reads2,
         trace w' = trace w
                    ++ [EvAcquire; EvFlush; EvWrite "enable"]
                    ++ map EvRead echo
                    ++ [EvFlush; EvWrite (ch_comms_return_char Lab.channel);
                        EvSetBlocking false]
                    ++ map EvRead reads1
                    ++ [EvSetBlocking true; EvWrite "secret"; EvFlush;
                        EvWrite (ch_comms_return_char Lab.channel);
                        EvSetBlocking false]
                    ++ map EvRead reads2
                    ++ [EvSetBlocking true; EvRelease].
Proof.
  intros w.
  destruct (@send_inputs_interact_single_stage _ Lab.get_prompt_pattern
              Lab.re_search Lab.re_sub_MI Lab.normalize_lines _strip_ansi
              Lab.bytes_decode Lab.unicodedata_lookup Lab.host Lab.channel
              true w eq_refl) as [Hstage _].
  eexists. eexists. split; [vm_compute; reflexivity|].
  match goal with
  | |- locked ?w' = false /\ _ =>
      destruct (Hstage "enable" "assword:" "secret" "r1#" _ w' eq_refl)
        as (Hl & echo & reads1 & reads2 & Ht & _)
  end.
  split; [exact Hl|]. exists echo, reads1, reads2. exact Ht.
Defined.

(** C8 fails as stated: a list of two stages is not run. The [for]
    statement unpacks the list itself into the four names and raises at
    once; no stage's input is written. The same holds for a list of one
    stage. *)
Lemma send_inputs_interact_stage_list_not_run :
  let w := Lab.device [b "enable"; NL :: b "Password:"; NL :: b "r1#";
                       b "reload"; NL :: b "[confirm]"; NL :: b "r1#"] in
  let two := Stages [["enable"; "assword:"; "secret"; "r1#"];
                     ["reload"; "[confirm]"; ""; "r1#"]] in
  let one := Stages [["enable"; "assword:"; "secret"; "r1#"]] in
  Lab.send_inputs_interact two true w
  = Failed (ValueError "not enough values to unpack (expected 4, got 2)") w
  /\ Lab.send_inputs_interact one true w
     = Failed (ValueError "not enough values to unpack (expected 4, got 1)") w
  /\ ~ In (EvWrite "enable") (trace (world_of (Lab.send_inputs_interact two true w))).
Proof.
  cbv zeta. split; [reflexivity|]. split; [reflexivity|].
  simpl. intros [].
Qed.

Lemma read_chunk_ansi_appends_stripped_copy_witness :
  let self := mkChannel "r1#" "" true 10 in
  let w := mkWorld false [b "r1#"] 1 [] in
  Lab.read_chunk self w
  = Done (b "r1#r1#") (mkWorld false [] 0 [EvRead (b "r1#")]).
Proof.
  intros self w.
  pose proof (@read_chunk_ansi_appends_stripped_copy _ Lab.re_search _strip_ansi
                Lab.unicodedata_lookup self w eq_refl) as H.
  change (Transport.read w)
    with (Done (b "r1#") (mkWorld false [] 0 [EvRead (b "r1#")])) in H.
  destruct H as (_ & Hdup & _).
  apply Hdup. vm_compute. reflexivity.
Defined.

(** C1 at a failing input. The device echoes the command and then sends
    output that ends in a backslash. The decoding in [_read_until_prompt]
    raises, the call ends with that failure, and the lock taken at the
    start of the call is still held: the next call on the channel cannot
    take it, writes nothing, and ends in a timeout although the device
    would have answered. The interactive operation ends the same way. *)
Theorem send_input_decode_error_leaves_lock_held :
  let w := Lab.device [b "dir"; NL :: b "Directory of C:\"] in
  let first := Lab.send_input "dir" true w in
  let w1 := mkWorld (locked (world_of first)) [b "show clock"; NL :: b "r1#"]
              0 (trace (world_of first)) in
  let second := Lab.send_input "show clock" true w1 in
  let interact :=
    Lab.send_input_interact "copy run tftp" "file name" "r1.cfg" "r1#" false
      (Lab.device [b "copy run tftp"; NL :: b "Address or name of remote host [\"]) in
  locked w = false
  /\ (exists w', first = Failed UnicodeDecodeError w')
  /\ locked (world_of first) = true
  /\ ~ In EvRelease (trace (world_of first))
  /\ (exists w', second = Failed OperationTimeout w')
  /\ ~ In (EvWrite "show clock") (trace (world_of second))
  /\ (exists w', interact = Failed UnicodeDecodeError w')
  /\ locked (world_of interact) = true.
Proof.
  cbv zeta.
  split; [reflexivity|].
  split; [eexists; vm_compute; reflexivity|].
  split; [vm_compute; reflexivity|].
  split; [vm_compute; intuition discriminate|].
  split; [eexists; vm_compute; reflexivity|].
  split; [vm_compute; intuition discriminate|].
  split; [eexists; vm_compute; reflexivity|].
  vm_compute; reflexivity.
Qed.

(** * Further properties of the channel arguments *)

Lemma post_init_cases (self : BaseChannelArgs) :
  let mode := str_lower (channel_log_mode self) in
  (mode = "write" /\ exists self', __post_init__ self = Ok self'
                                  /\ channel_log_mode self' = "w")
  \/ (mode = "append" /\ exists self', __post_init__ self = Ok self'
                                      /\ channel_log_mode self' = "a")
  \/ (mode <> "write" /\ mode <> "append"
      /\ __post_init__ self
         = Raise (ScrapliValueError
             ("provided channel_log_mode '" ++ channel_log_mode self ++
              "' is not valid, mode must be one of: 'write', 'append'")%string)).
Proof.
  destruct self as [login password passphrase prompt rc depth t lg mode lock].
  cbv zeta. unfold __post_init__. simpl.
  destruct login, password, passphrase; simpl;
    (destruct (String.eqb (str_lower mode) "write") eqn:Ew;
     [ apply String.eqb_eq in Ew; left; split; [exact Ew|];
       simpl; eexists; split; reflexivity
     | apply String.eqb_neq in Ew;
       destruct (String.eqb (str_lower mode) "append") eqn:Ea;
       [ apply String.eqb_eq in Ea; right; left; split; [exact Ea|];
         simpl; eexists; split; reflexivity
       | apply String.eqb_neq in Ea; right; right; simpl; auto ] ]).
Qed.

(** X1. [__post_init__] accepts exactly the log modes that read write or
    append once lower-cased, and then stores [w] or [a]; any other mode
    raises [ScrapliValueError] with the mode as supplied in the message.
    The return character, the search depth, the timeout, the log
    destination and the lock flag pass through unchanged. *)
Theorem post_init_validates_log_mode (self : BaseChannelArgs) :
  let mode := str_lower (channel_log_mode self) in
  match __post_init__ self with
  | Ok self' =>
      ((mode = "write" /\ channel_log_mode self' = "w")
       \/ (mode = "append" /\ channel_log_mode self' = "a"))
      /\ comms_return_char self' = comms_return_char self
      /\ comms_prompt_search_depth self' = comms_prompt_search_depth self
      /\ timeout_ops self' = timeout_ops self
      /\ channel_log self' = channel_log self
      /\ channel_lock self' = channel_lock self
  | Raise e =>
      mode <> "write" /\ mode <> "append"
      /\ e = ScrapliValueError
               ("provided channel_log_mode '" ++ channel_log_mode self ++
                "' is not valid, mode must be one of: 'write', 'append'")%string
  end.
Proof.
  destruct self as [login password passphrase prompt rc depth t lg mode lock].
  cbv zeta. unfold __post_init__. simpl.
  destruct login, password, passphrase; simpl;
    (destruct (String.eqb (str_lower mode) "write") eqn:Ew;
     [ apply String.eqb_eq in Ew; simpl; repeat split; auto
     | apply String.eqb_neq in Ew;
       destruct (String.eqb (str_lower mode) "append") eqn:Ea;
       [ apply String.eqb_eq in Ea; simpl; repeat split; auto
       | apply String.eqb_neq in Ea; simpl; auto ] ]).
Qed.

(** X2. Validation is not repeatable: the arguments [__post_init__]
    returns hold the mode [w] or [a], which [__post_init__] itself
    refuses, so running it on validated arguments raises
    [ScrapliValueError]. *)
Theorem post_init_refuses_validated_args (self self' : BaseChannelArgs) :
  __post_init__ self = Ok self' ->
  exists msg, __post_init__ self' = Raise (ScrapliValueError msg).
Proof.
  intros Hok.
  assert (Hmode : channel_log_mode self' = "w" \/ channel_log_mode self' = "a").
  { destruct (post_init_cases self)
      as [(_ & s & Hs & Hm)|[(_ & s & Hs & Hm)|(_ & _ & Hr)]];
      rewrite Hok in *; try discriminate; inversion Hs; subst; auto. }
  destruct (post_init_cases self')
    as [(Hw & _)|[(Ha & _)|(_ & _ & Hr)]].
  - destruct Hmode as [H|H]; rewrite H in Hw; discriminate Hw.
  - destruct Hmode as [H|H]; rewrite H in Ha; discriminate Ha.
  - eexists. exact Hr.
Qed.

Lemma post_init_refuses_validated_args_witness :
  exists self' msg,
    __post_init__ default_args = Ok self'
    /\ __post_init__ self' = Raise (ScrapliValueError msg).
Proof.
  eexists. 
  destruct (@post_init_refuses_validated_args default_args _ eq_refl) as [msg H].
  exists msg. split; [reflexivity|exact H].
Defined.

Lemma encode_nonempty (s : str) : s <> "" -> encode s <> [].
Proof.
  destruct s as [|c s]; [congruence|]. intros _. simpl.
  unfold utf8_char. destruct (N.ltb (ord c) 128); discriminate.
Qed.

(** X3. After a successful [__post_init__] none of the three
    authentication getters compiles an empty pattern: each text handed
    to [re.compile] is not empty, so a getter returns a pattern with a
    source that is not empty, or raises [re.error]. *)
Theorem post_init_auth_patterns_not_empty (re_valid : bytes -> bool)
  (self self' : BaseChannelArgs) :
  __post_init__ self = Ok self' ->
  (encode (auth_telnet_login_pattern self') <> []
   /\ encode (auth_password_pattern self') <> []
   /\ encode (auth_passphrase_pattern self') <> [])
  /\ match get_auth_telnet_login_pattern re_valid self' with
     | Ok p => pattern_source p <> []
     | Raise e => e = ReError
     end
  /\ match get_auth_password_pattern re_valid self' with
     | Ok p => pattern_source p <> []
     | Raise e => e = ReError
     end
  /\ match get_auth_passphrase_pattern re_valid self' with
     | Ok p => pattern_source p <> []
     | Raise e => e = ReError
     end.
Proof.
  intros Hok.
  assert (H : auth_telnet_login_pattern self' <> ""
              /\ auth_password_pattern self' <> ""
              /\ auth_passphrase_pattern self' <> "").
  { destruct self as [login password passphrase prompt rc depth t lg mode lock].
    unfold __post_init__ in Hok. simpl in Hok.
    destruct login, password, passphrase; simpl in Hok;
      destruct (String.eqb (str_lower mode) "write");
      destruct (String.eqb (str_lower mode) "append");
      simpl in Hok; try discriminate Hok;
      inversion Hok; subst; simpl; repeat split; discriminate. }
  destruct H as (H1 & H2 & H3).
  apply encode_nonempty in H1, H2, H3.
  split; [auto|].
  unfold get_auth_telnet_login_pattern, get_auth_password_pattern,
    get_auth_passphrase_pattern, re_compile_MI_or_raise.
  repeat split;
    match goal with
    | |- match (if re_valid ?src then _ else _) with _ => _ end =>
        destruct (re_valid src); simpl; auto
    end.
Qed.

Lemma post_init_auth_patterns_not_empty_witness :
  exists self' p,
    __post_init__ (set_auth_password_pattern "" default_args) = Ok self'
    /\ get_auth_passphrase_pattern Lab.re_valid self' = Ok p
    /\ pattern_source p <> [].
Proof.
  eexists. eexists. split; [reflexivity|]. split; [reflexivity|].
  destruct (@post_init_auth_patterns_not_empty Lab.re_valid
              (set_auth_password_pattern "" default_args) _ eq_refl)
    as (_ & _ & _ & H).
  exact H.
Defined.

Lemma setter_differs_only_in (f : pattern_field) (v : str)
  (args : BaseChannelArgs) :
  differs_only_in f v args (set_pattern f v args).
Proof.
  unfold differs_only_in.
  destruct args as [login password passphrase prompt rc depth t lg mode lock].
  destruct f; simpl; (split; [reflexivity|]);
    (split; [intros g Hg; destruct g; try reflexivity; congruence|]);
    repeat split.
Qed.

(** X4. Each of the three pattern setters stores any [str] as it is, the
    empty string included (the fall-back of [__post_init__] is not
    applied again), and changes no other field; afterwards its getter
    gives what [re.compile] makes of that text, a pattern with the flags
    [re.I | re.M] or [re.error]. A value that is not a [str] raises a
    bare [ScrapliTypeError]. *)
Theorem pattern_setters_store_any_text (re_valid : bytes -> bool)
  (args : BaseChannelArgs) :
  (forall v,
     (exists a,
        auth_telnet_login_pattern_setter (PyStr v) args = Ok a
        /\ differs_only_in AuthTelnetLogin v args a
        /\ get_auth_telnet_login_pattern re_valid a
           = if re_valid (encode v)
             then Ok (mkPattern (encode v) true true) else Raise ReError)
     /\ (exists a,
           auth_password_pattern_setter (PyStr v) args = Ok a
           /\ differs_only_in AuthPassword v args a
           /\ get_auth_password_pattern re_valid a
              = if re_valid (encode v)
                then Ok (mkPattern (encode v) true true) else Raise ReError)
     /\ (exists a,
           auth_passphrase_pattern_setter (PyStr v) args = Ok a
           /\ differs_only_in AuthPassphrase v args a
           /\ get_auth_passphrase_pattern re_valid a
              = if re_valid (encode v)
                then Ok (mkPattern (encode v) true true) else Raise ReError))
  /\ (forall value,
        (forall v, value <> PyStr v) ->
        auth_telnet_login_pattern_setter value args = Raise (ScrapliTypeError "")
        /\ auth_password_pattern_setter value args = Raise (ScrapliTypeError "")
        /\ auth_passphrase_pattern_setter value args = Raise (ScrapliTypeError "")).
Proof.
  split.
  - intros v. repeat split;
      (eexists; split; [reflexivity|]; split;
       [apply setter_differs_only_in|reflexivity]).
  - intros value Hnot.
    destruct value; try (repeat split; reflexivity).
    exfalso. eapply Hnot. reflexivity.
Qed.

(** * Further properties of the read-buffer window *)

(** X5. For a depth that is not negative, what [_process_read_buf]
    returns is never longer than the depth nor than the buffer, and the
    buffer is left with its content unchanged and its position at the
    end. *)
Theorem process_read_buf_bounded (depth : Z) (read_buf : BytesIO) :
  (0 <= depth)%Z ->
  exists search_buf,
    _process_read_buf depth read_buf
    = Ok (search_buf, mkBytesIO (getvalue read_buf) (Zlen (getvalue read_buf)))
    /\ List.length search_buf <= Z.to_nat depth
    /\ List.length search_buf <= List.length (getvalue read_buf).
Proof.
  intros Hd.
  pose proof (search_window_last_bytes read_buf Hd) as Hw.
  unfold search_window in Hw. unfold _process_read_buf.
  unfold seek in *. unfold read in *. cbn [getvalue tell fst] in *.
  set (pos := Z.max 0 (Zlen (getvalue read_buf) + - depth)) in *.
  set (window := skipn (Z.to_nat pos) (getvalue read_buf)) in *.
  assert (Hlen : List.length window <= Z.to_nat depth
                 /\ List.length window <= List.length (getvalue read_buf)).
  { rewrite Hw. unfold last_bytes. rewrite length_skipn. lia. }
  assert (Hpos : (pos + Zlen window = Zlen (getvalue read_buf))%Z).
  { unfold window, Zlen. rewrite length_skipn. unfold pos, Zlen. lia. }
  rewrite Hpos.
  destruct (partition1 NL window) as [[before found] after] eqn:P.
  assert (Hparts : List.length before <= List.length window
                   /\ List.length after <= List.length window).
  { destruct (partition1_spec _ _ P) as [(Hf & Ha & Hb & _)|(Hf & Hs & _)].
    - subst. simpl. lia.
    - rewrite Hs, length_app. simpl. lia. }
  destruct after as [|a after]; eexists; (split; [reflexivity|]); lia.
Qed.

(** X6. [_process_read_buf] returns no bytes only when the bytes read
    are none, or a single newline. *)
Theorem process_read_buf_empty_iff (depth : Z) (read_buf : BytesIO) :
  exists search_buf read_buf',
    _process_read_buf depth read_buf = Ok (search_buf, read_buf')
    /\ (search_buf = [] <->
        search_window depth read_buf = [] \/ search_window depth read_buf = [NL]).
Proof.
  destruct (process_read_buf_run depth read_buf) as [read_buf' Hrun].
  set (window := search_window depth read_buf) in *.
  destruct (partition1 NL window) as [[before found] after] eqn:P.
  eexists. exists read_buf'. split; [exact Hrun|].
  destruct (partition1_spec _ _ P) as [(Hf & Ha & Hb & Hn)|(Hf & Hs & Hn)].
  - subst after before. split.
    + intros H. left. exact H.
    + intros [H|H]; [exact H|].
      exfalso. apply Hn. rewrite H. left. reflexivity.
  - destruct after as [|a after].
    + split.
      * intros H. subst before. right. exact Hs.
      * intros [H|H].
        -- rewrite H in Hs. destruct before; discriminate Hs.
        -- rewrite H in Hs. destruct before as [|c [|d before]];
             [reflexivity|discriminate Hs|discriminate Hs].
    + split.
      * intros H. discriminate H.
      * intros [H|H].
        -- rewrite H in Hs. destruct before; discriminate Hs.
        -- rewrite H in Hs. destruct before as [|c [|d before]]; discriminate Hs.
Qed.

(** * Joined patterns *)

Lemma byte_eqb_refl (c : byte) : Byte.eqb c c = true.
Proof. apply Byte.byte_dec_lb. reflexivity. Qed.

Lemma startswith_app (s t : bytes) : startswith (s ++ t) s = true.
Proof.
  induction s as [|c s IH]; simpl.
  - destruct t; reflexivity.
  - rewrite byte_eqb_refl, IH. reflexivity.
Qed.

Lemma contains_cons (c : byte) (s sub : bytes) :
  contains (c :: s) sub = startswith (c :: s) sub || contains s sub.
Proof. reflexivity. Qed.

Lemma contains_app_r (pre s sub : bytes) :
  contains s sub = true -> contains (pre ++ s) sub = true.
Proof.
  intros H. induction pre as [|c pre IH]; [exact H|].
  change ((c :: pre) ++ s) with (c :: pre ++ s).
  rewrite contains_cons, IH. apply orb_true_r.
Qed.

Lemma contains_startswith (s sub : bytes) :
  startswith s sub = true -> contains s sub = true.
Proof. intros H. destruct s; simpl in *; rewrite H; reflexivity. Qed.

Lemma contains_infix (pre sub post : bytes) :
  contains (pre ++ sub ++ post) sub = true.
Proof.
  apply contains_app_r, contains_startswith, startswith_app.
Qed.

Lemma join_has_each (sep : bytes) (rows : list bytes) (row : bytes) :
  In row rows -> exists pre post, join sep rows = pre ++ row ++ post.
Proof.
  induction rows as [|r rows IH]; intros Hin; [contradiction|].
  destruct Hin as [Heq|Hin].
  - subst r. destruct rows as [|r' rows].
    + exists [], []. simpl. rewrite app_nil_r. reflexivity.
    + exists [], (sep ++ join sep (r' :: rows)). reflexivity.
  - destruct rows as [|r' rows]; [contradiction|].
    destruct (IH Hin) as (pre & post & Hj).
    exists (r ++ sep ++ pre), post.
    change (join sep (r :: r' :: rows)) with (r ++ sep ++ join sep (r' :: rows)).
    rewrite Hj, <- !app_assoc. reflexivity.
Qed.

Lemma join_app (sep : bytes) (rows rows' : list bytes) :
  rows <> [] -> rows' <> [] ->
  join sep (rows ++ rows') = join sep rows ++ sep ++ join sep rows'.
Proof.
  intros Hne Hne'. induction rows as [|r rows IH]; [congruence|].
  destruct rows as [|r' rows].
  - destruct rows' as [|r' rows']; [congruence|]. reflexivity.
  - change (join sep ((r :: r' :: rows) ++ rows'))
      with (r ++ sep ++ join sep ((r' :: rows) ++ rows')).
    rewrite IH by discriminate.
    change (join sep (r :: r' :: rows)) with (r ++ sep ++ join sep (r' :: rows)).
    rewrite <- !app_assoc. reflexivity.
Qed.

Lemma regex_channel_outputs_join (outputs : list bytes) :
  regex_channel_outputs (Some outputs)
  = join (b "|") (map (fun x => b "(" ++ x ++ b ")") outputs).
Proof. destruct outputs; reflexivity. Qed.

Lemma join_length (sep : byte) (rows : list bytes) :
  rows <> [] ->
  List.length (join [sep] rows)
  = list_sum (map (@List.length byte) rows) + (List.length rows - 1).
Proof.
  induction rows as [|r rows IH]; [congruence|]. intros _.
  destruct rows as [|r' rows].
  - simpl. lia.
  - change (join [sep] (r :: r' :: rows))
      with (r ++ [sep] ++ join [sep] (r' :: rows)).
    rewrite !length_app, IH by discriminate.
    simpl. lia.
Qed.

(** X7. [_join_and_compile] gives the empty pattern for [None] and for
    the empty list. Otherwise the source it hands to [re.compile] is
    each channel output between parentheses with one bar between
    neighbours: one output gives that output between parentheses, and
    the source of two lists in a row is the source of the first, a bar,
    and the source of the second; so every output occurs in it between
    parentheses and its length is that of the outputs plus two
    parentheses each and one bar between neighbours. It returns the
    pattern of that source with the flags [re.I | re.M] where
    [re.compile] accepts the source, and raises [re.error] where it does
    not. *)
Theorem join_and_compile_holds_each_output (re_valid : bytes -> bool) :
  re_valid [] = true ->
  _join_and_compile re_valid None = Ok (mkPattern [] true true)
  /\ _join_and_compile re_valid (Some []) = Ok (mkPattern [] true true)
  /\ (forall output,
        regex_channel_outputs (Some [output]) = b "(" ++ output ++ b ")")
  /\ (forall outputs outputs',
        outputs <> [] -> outputs' <> [] ->
        regex_channel_outputs (Some (outputs ++ outputs'))
        = regex_channel_outputs (Some outputs) ++ b "|"
          ++ regex_channel_outputs (Some outputs'))
  /\ forall outputs,
       let source := regex_channel_outputs (Some outputs) in
       (forall output,
          In output outputs ->
          contains source (b "(" ++ output ++ b ")") = true)
       /\ (outputs <> [] ->
           List.length source
           = list_sum (map (fun o => List.length o + 2) outputs)
             + (List.length outputs - 1))
       /\ match _join_and_compile re_valid (Some outputs) with
          | Ok p =>
              re_valid source = true
              /\ pattern_source p = source
              /\ flag_I p = true /\ flag_M p = true
          | Raise e => re_valid source = false /\ e = ReError
          end.
Proof.
  intros Hempty.
  split; [unfold _join_and_compile, re_compile_MI_or_raise; simpl;
          rewrite Hempty; reflexivity|].
  split; [unfold _join_and_compile, re_compile_MI_or_raise; simpl;
          rewrite Hempty; reflexivity|].
  split; [reflexivity|]. split.
  - intros outputs outputs' Hne Hne'.
    rewrite !regex_channel_outputs_join, map_app.
    apply join_app.
    + destruct outputs; [congruence|discriminate].
    + destruct outputs'; [congruence|discriminate].
  - intros outputs source. unfold source. split; [|split].
    + intros output Hin.
      rewrite regex_channel_outputs_join.
      destruct (@join_has_each (b "|")
                  (map (fun x => b "(" ++ x ++ b ")") outputs)
                  (b "(" ++ output ++ b ")")) as (pre & post & Hj).
      { apply (in_map (fun x => b "(" ++ x ++ b ")")). exact Hin. }
      rewrite Hj. apply contains_infix.
    + intros Hne. rewrite regex_channel_outputs_join.
      change (b "|") with [x7c].
      rewrite join_length by (destruct outputs; [congruence|discriminate]).
      rewrite map_map, length_map.
      f_equal. f_equal. apply map_ext. intros x.
      rewrite !length_app. simpl. lia.
    + unfold _join_and_compile, re_compile_MI_or_raise.
      destruct (re_valid (regex_channel_outputs (Some outputs))); simpl; auto.
Qed.

Lemma join_and_compile_holds_each_output_witness :
  _join_and_compile Lab.re_valid None = Ok (mkPattern [] true true)
  /\ exists p,
       _join_and_compile Lab.re_valid (Some [b "r1#"; b "r1>"]) = Ok p
       /\ pattern_source p = b "(r1#)|(r1>)"
       /\ flag_I p = true /\ flag_M p = true.
Proof.
  destruct (@join_and_compile_holds_each_output Lab.re_valid eq_refl)
    as (Hnone & _ & _ & _ & Hall).
  split; [exact Hnone|].
  destruct (Hall [b "r1#"; b "r1>"]) as (_ & _ & H).
  destruct (_join_and_compile Lab.re_valid (Some [b "r1#"; b "r1>"])) as [p|e].
  - exists p. destruct H as (_ & Hs & Hi & Hm).
    split; [reflexivity|]. split; [exact Hs|]. split; [exact Hi|exact Hm].
  - destruct H as [H _]. vm_compute in H. discriminate H.
Defined.

(** * Further properties of the classifier *)

Lemma with_detail_not_empty (msg label : str) (detail : option bytes) :
  msg <> "" -> with_detail msg label detail <> "".
Proof.
  intros H. destruct msg as [|c msg]; [congruence|].
  destruct detail; simpl; discriminate.
Qed.

Lemma bytes_repr_not_empty (s : bytes) : bytes_repr s <> "".
Proof. unfold bytes_repr. cbn [app]. simpl. discriminate. Qed.

Lemma ssh_message_empty_iff (output : bytes) :
  let low := lower output in
  _ssh_message output = "" <->
  contains low (b "host key verification failed") = false
  /\ contains low (b "operation timed out") = false
  /\ contains low (b "connection timed out") = false
  /\ contains low (b "no route to host") = false
  /\ contains low (b "no matching host key") = false
  /\ contains low (b "no matching key exchange") = false
  /\ contains low (b "no matching cipher") = false
  /\ contains low (b "bad configuration") = false
  /\ contains output (b "WARNING: UNPROTECTED PRIVATE KEY FILE!") = false
  /\ contains low (b "could not resolve hostname") = false
  /\ contains low (b "permission denied") = false.
Proof.
  cbv zeta. unfold _ssh_message.
  repeat match goal with
  | |- context [contains ?s ?t] =>
      let E := fresh "E" in
      destruct (contains s t) eqn:E
  end; cbn [orb];
  try (split; [intros; repeat split; reflexivity | intros; reflexivity]);
  (split; [ intros H; exfalso; revert H;
            first [ discriminate
                  | apply with_detail_not_empty; discriminate
                  | apply bytes_repr_not_empty ]
          | intros H; decompose [and] H; discriminate ]).
Qed.

(** X8. [_ssh_message_handler] returns without raising exactly when the
    output contains none of its eleven trigger texts (ten compared without
    case, the warning about the private key file with its case); when it
    raises, the failure is [ScrapliAuthenticationFailed] with a message
    that is not empty. *)
Theorem ssh_message_handler_silent_iff (output : bytes) :
  let low := lower output in
  (_ssh_message_handler output = Ok tt <->
   contains low (b "host key verification failed") = false
   /\ contains low (b "operation timed out") = false
   /\ contains low (b "connection timed out") = false
   /\ contains low (b "no route to host") = false
   /\ contains low (b "no matching host key") = false
   /\ contains low (b "no matching key exchange") = false
   /\ contains low (b "no matching cipher") = false
   /\ contains low (b "bad configuration") = false
   /\ contains output (b "WARNING: UNPROTECTED PRIVATE KEY FILE!") = false
   /\ contains low (b "could not resolve hostname") = false
   /\ contains low (b "permission denied") = false)
  /\ (forall e, _ssh_message_handler output = Raise e ->
        exists msg, e = ScrapliAuthenticationFailed msg /\ msg <> "").
Proof.
  cbv zeta. split.
  - rewrite <- (ssh_message_empty_iff output).
    unfold _ssh_message_handler.
    destruct (is_empty (_ssh_message output)) eqn:E.
    + apply is_empty_true in E. split; auto.
    + apply is_empty_false in E. split; [discriminate|contradiction].
  - intros e. unfold _ssh_message_handler.
    destruct (is_empty (_ssh_message output)) eqn:E; [discriminate|].
    intros H. inversion H; subst. eexists. split; [reflexivity|].
    apply is_empty_false. exact E.
Qed.

Lemma search_group1_none_iff (lit : bytes) (cls : byte -> bool) (text : bytes) :
  search_group1 lit cls text = None <-> contains (lower text) lit = false.
Proof.
  induction text as [|c text IH].
  - destruct lit; simpl; split; congruence.
  - cbn [search_group1]. change (lower (c :: text)) with (lower_byte c :: lower text).
    rewrite contains_cons.
    destruct (startswith (lower_byte c :: lower text) lit); simpl.
    + split; discriminate.
    + exact IH.
Qed.

Lemma startswith_lower_split (lit text : bytes) :
  startswith (lower text) lit = true ->
  lower (firstn (List.length lit) text) = lit
  /\ text = firstn (List.length lit) text ++ skipn (List.length lit) text.
Proof.
  intros H. split; [|symmetry; apply firstn_skipn].
  revert text H. induction lit as [|p lit IH]; intros text H; [reflexivity|].
  destruct text as [|c text]; [discriminate H|].
  simpl in H. apply andb_true_iff in H. destruct H as [Hc Ht].
  apply Byte.byte_dec_bl in Hc.
  simpl. rewrite Hc. f_equal. apply IH. exact Ht.
Qed.

Lemma take_while_split (f : byte -> bool) (s : bytes) :
  exists post,
    s = take_while f s ++ post
    /\ forallb f (take_while f s) = true
    /\ (post = [] \/ exists c post', post = c :: post' /\ f c = false).
Proof.
  induction s as [|c s IH]; simpl.
  - exists []. repeat split; auto.
  - destruct (f c) eqn:E.
    + destruct IH as (post & Hs & Hall & Hpost).
      exists post. simpl. rewrite E, Hall. repeat split; auto.
      f_equal. exact Hs.
    + exists (c :: s). repeat split; auto. right. eauto.
Qed.

Lemma search_group1_some (lit : bytes) (cls : byte -> bool) (text detail : bytes) :
  search_group1 lit cls text = Some detail ->
  exists pre marker post,
    text = pre ++ marker ++ detail ++ post
    /\ lower marker = lit
    /\ forallb (fun c => cls (lower_byte c)) detail = true
    /\ (post = [] \/ exists c post', post = c :: post' /\ cls (lower_byte c) = false).
Proof.
  induction text as [|c text IH]; cbn [search_group1].
  - destruct (startswith (lower []) lit) eqn:E; [|discriminate].
    intros H. inversion H; subst; clear H.
    destruct (startswith_lower_split lit [] E) as [Hm Ht].
    destruct (take_while_split (fun c => cls (lower_byte c)) (skipn (List.length lit) []))
      as (post & Hs & Hall & Hpost).
    exists [], (firstn (List.length lit) []), post.
    repeat split; auto. simpl. rewrite <- Hs. exact Ht.
  - destruct (startswith (lower (c :: text)) lit) eqn:E.
    + intros H. inversion H; subst; clear H.
      destruct (startswith_lower_split lit (c :: text) E) as [Hm Ht].
      destruct (take_while_split (fun c => cls (lower_byte c))
                  (skipn (List.length lit) (c :: text)))
        as (post & Hs & Hall & Hpost).
      exists [], (firstn (List.length lit) (c :: text)), post.
      repeat split; auto. simpl app at 1. rewrite <- Hs. exact Ht.
    + intros H. destruct (IH H) as (pre & marker & post & Ht & Hm & Hall & Hpost).
      exists (c :: pre), marker, post. repeat split; auto.
      simpl. f_equal. exact Ht.
Qed.

(** X9. When the cipher rule is the first to match, the message is the
    fixed text alone if the output holds no [their offer: ] (in any
    case), and otherwise the fixed text followed by the offer: the run of
    letters, digits, hyphens and commas that follows an occurrence of
    [their offer: ] in the output, up to the first other byte. *)
Theorem no_matching_cipher_detail (output : bytes) :
  let low := lower output in
  contains low (b "host key verification failed") = false ->
  contains low (b "operation timed out") = false ->
  contains low (b "connection timed out") = false ->
  contains low (b "no route to host") = false ->
  contains low (b "no matching host key") = false ->
  contains low (b "no matching key exchange") = false ->
  contains low (b "no matching cipher") = true ->
  (contains low (b "their offer: ") = false ->
   _ssh_message_handler output
   = Raise (ScrapliAuthenticationFailed "No matching cipher found for host"))
  /\ (contains low (b "their offer: ") = true ->
      exists pre marker detail post,
        output = pre ++ marker ++ detail ++ post
        /\ lower marker = b "their offer: "
        /\ forallb (fun c => offer_class (lower_byte c)) detail = true
        /\ (post = [] \/ exists c post',
               post = c :: post' /\ offer_class (lower_byte c) = false)
        /\ _ssh_message_handler output
           = Raise (ScrapliAuthenticationFailed
               ("No matching cipher found for host, their offer: "
                ++ decode_ascii detail)%string)).
Proof.
  cbv zeta. intros H1 H2 H3 H4 H5 H6 H7.
  assert (Hmsg : _ssh_message output
                 = with_detail "No matching cipher found for host" ", their offer: "
                     (search_group1 (b "their offer: ") offer_class output)).
  { unfold _ssh_message. rewrite H1, H2, H3, H4, H5, H6, H7. reflexivity. }
  split.
  - intros Hno. apply ssh_message_handler_raises; [|discriminate].
    rewrite Hmsg. apply search_group1_none_iff with (cls := offer_class) in Hno.
    rewrite Hno. reflexivity.
  - intros Hyes.
    destruct (search_group1 (b "their offer: ") offer_class output) as [detail|] eqn:S.
    + destruct (@search_group1_some _ _ _ _ S)
        as (pre & marker & post & Ht & Hm & Hall & Hpost).
      exists pre, marker, detail, post. repeat split; auto.
      apply ssh_message_handler_raises; [exact Hmsg|].
      simpl. discriminate.
    + apply search_group1_none_iff in S. congruence.
Qed.

Lemma no_matching_cipher_detail_witness :
  let output :=
    b "Unable to negotiate: no matching cipher found. Their offer: aes128-cbc,3des-cbc" in
  exists pre marker detail post,
    output = pre ++ marker ++ detail ++ post
    /\ lower marker = b "their offer: "
    /\ forallb (fun c => offer_class (lower_byte c)) detail = true
    /\ (post = [] \/ exists c post',
           post = c :: post' /\ offer_class (lower_byte c) = false)
    /\ _ssh_message_handler output
       = Raise (ScrapliAuthenticationFailed
           ("No matching cipher found for host, their offer: "
            ++ decode_ascii detail)%string).
Proof.
  intros output.
  exact (proj2 (@no_matching_cipher_detail output
                  eq_refl eq_refl eq_refl eq_refl eq_refl eq_refl eq_refl)
               eq_refl).
Defined.

(** * Further properties of ANSI stripping *)

Lemma star_loop_leaves_suffix (r1 : regex) (k : bytes -> option bytes) (x : bytes) :
  (forall s k x, matchk r1 s k = Some x ->
                 exists pre s', s = pre ++ s' /\ k s' = Some x) ->
  forall fuel s,
    (fix loop (fuel : nat) (s : bytes) {struct fuel} : option bytes :=
       match fuel with
       | O => k s
       | S fuel' =>
           match matchk r1 s
                   (fun s' => if Nat.ltb (List.length s') (List.length s)
                              then loop fuel' s' else None) with
           | Some rest => Some rest
           | None => k s
           end
       end) fuel s = Some x ->
    exists pre s', s = pre ++ s' /\ k s' = Some x.
Proof.
  intros IH1. induction fuel as [|fuel IHf]; intros s H.
  - exists [], s. auto.
  - match type of H with
    | match ?m with _ => _ end = _ => destruct m as [y|] eqn:E
    end.
    + inversion H; subst; clear H.
      destruct (IH1 _ _ _ E) as (pre1 & s1 & Hs1 & H1).
      destruct (Nat.ltb (List.length s1) (List.length s)); [|discriminate].
      destruct (IHf _ H1) as (pre2 & s2 & Hs2 & H2).
      exists (pre1 ++ pre2), s2. subst. rewrite <- app_assoc. auto.
    + exists [], s. auto.
Qed.

Lemma matchk_leaves_suffix (r : regex) :
  forall s k x,
    matchk r s k = Some x ->
    exists pre s', s = pre ++ s' /\ k s' = Some x.
Proof.
  induction r as [|f|r1 IH1 r2 IH2|r1 IH1 r2 IH2|r1 IH1|r1 IH1];
    intros s k x H.
  - exists [], s. auto.
  - cbn [matchk] in H. destruct s as [|c s]; [discriminate|].
    destruct (f c); [|discriminate].
    exists [c], s. auto.
  - cbn [matchk] in H.
    destruct (IH1 _ _ _ H) as (pre1 & s1 & Hs1 & H1).
    destruct (IH2 _ _ _ H1) as (pre2 & s2 & Hs2 & H2).
    exists (pre1 ++ pre2), s2. subst. rewrite <- app_assoc. auto.
  - cbn [matchk] in H. destruct (matchk r1 s k) as [y|] eqn:E.
    + inversion H; subst. apply (IH1 _ _ _ E).
    + apply (IH2 _ _ _ H).
  - cbn [matchk] in H. destruct (matchk r1 s k) as [y|] eqn:E.
    + inversion H; subst. apply (IH1 _ _ _ E).
    + exists [], s. auto.
  - apply (@star_loop_leaves_suffix r1 k x IH1 (S (List.length s)) s).
    exact H.
Qed.

Lemma match_here_leaves_suffix (r : regex) (s rest : bytes) :
  match_here r s = Some rest -> exists pre, s = pre ++ rest.
Proof.
  intros H. destruct (matchk_leaves_suffix _ _ _ H) as (pre & s' & Hs & Hk).
  inversion Hk; subst. eauto.
Qed.

Lemma subseq_refl (s : bytes) : subseq s s.
Proof. induction s; constructor; auto. Qed.

Lemma subseq_app_drop (pre a s : bytes) : subseq a s -> subseq a (pre ++ s).
Proof. intros H. induction pre; simpl; [exact H|constructor; auto]. Qed.

Lemma subseq_length (a s : bytes) : subseq a s -> List.length a <= List.length s.
Proof. induction 1; simpl; lia. Qed.

Lemma subseq_forall (P : byte -> Prop) (a s : bytes) :
  subseq a s -> Forall P s -> Forall P a.
Proof.
  induction 1; intros HF; auto.
  - inversion HF; subst. constructor; auto.
  - inversion HF; subst. auto.
Qed.

Lemma re_sub_empty_subseq (r : regex) (fuel : nat) :
  forall buf, subseq (re_sub_empty r fuel buf) buf.
Proof.
  induction fuel as [|fuel IH]; intros buf; cbn [re_sub_empty].
  - apply subseq_refl.
  - destruct buf as [|c buf]; [constructor|].
    destruct (match_here r (c :: buf)) as [rest|] eqn:E.
    + destruct (Nat.ltb (List.length rest) (List.length (c :: buf))).
      * destruct (match_here_leaves_suffix _ _ E) as [pre Hs].
        rewrite Hs. apply subseq_app_drop, IH.
      * constructor. apply IH.
    + constructor. apply IH.
Qed.

(** X10. [_strip_ansi] only removes bytes: its result is the buffer with
    some bytes left out, in the same order, so it is never longer and
    holds no byte the buffer did not hold. *)
Theorem strip_ansi_only_removes (buf : bytes) :
  subseq (_strip_ansi buf) buf
  /\ List.length (_strip_ansi buf) <= List.length buf
  /\ (forall c, In c (_strip_ansi buf) -> In c buf).
Proof.
  assert (H : subseq (_strip_ansi buf) buf) by apply re_sub_empty_subseq.
  split; [exact H|]. split; [apply subseq_length; exact H|].
  intros c Hin.
  assert (HF : Forall (fun d => In d buf) (_strip_ansi buf)).
  { apply (@subseq_forall _ _ _ H). apply Forall_forall. auto. }
  rewrite Forall_forall in HF. apply HF. exact Hin.
Qed.

(** X11. Bytes in front of the first lead byte (ESC or 0x9B) are kept
    as they are: stripping a buffer that starts with such bytes is those
    bytes followed by the stripping of the rest. *)
Theorem strip_ansi_keeps_plain_prefix (plain rest : bytes) :
  existsb ansi_lead plain = false ->
  _strip_ansi (plain ++ rest) = plain ++ _strip_ansi rest.
Proof.
  induction plain as [|c plain IH]; intros H; [reflexivity|].
  simpl in H. apply orb_false_iff in H. destruct H as [Hc Hplain].
  unfold _strip_ansi in *. simpl app. cbn [List.length re_sub_empty].
  rewrite (match_here_needs_lead c (plain ++ rest) Hc).
  f_equal. apply IH. exact Hplain.
Qed.

Lemma strip_ansi_keeps_plain_prefix_witness :
  _strip_ansi (b "r1#" ++ [ESC] ++ b "[0m") = b "r1#" ++ _strip_ansi ([ESC] ++ b "[0m").
Proof.
  apply strip_ansi_keeps_plain_prefix. reflexivity.
Defined.

(** * Lines and trimming *)

Lemma drop_while_suffix (f : byte -> bool) (s : bytes) :
  exists dropped, s = dropped ++ drop_while f s /\ forallb f dropped = true.
Proof.
  induction s as [|c s IH]; simpl.
  - exists []. auto.
  - destruct (f c) eqn:E.
    + destruct IH as (d & Hs & Hd). exists (c :: d). simpl.
      rewrite E, Hd. split; [f_equal; exact Hs|reflexivity].
    + exists []. auto.
Qed.

Lemma drop_while_head (f : byte -> bool) (s : bytes) (c : byte) (t : bytes) :
  drop_while f s = c :: t -> f c = false.
Proof.
  induction s as [|d s IH]; simpl; [discriminate|].
  destruct (f d) eqn:E; [exact IH|].
  intros H. inversion H; subst. exact E.
Qed.

Lemma drop_while_fixed (f : byte -> bool) (s : bytes) :
  match s with c :: _ => f c = false | [] => True end ->
  drop_while f s = s.
Proof. destruct s as [|c s]; simpl; [auto|]. intros H. rewrite H. reflexivity. Qed.

Lemma drop_while_idem (f : byte -> bool) (s : bytes) :
  drop_while f (drop_while f s) = drop_while f s.
Proof.
  apply drop_while_fixed.
  destruct (drop_while f s) as [|c t] eqn:E; [exact I|].
  eapply drop_while_head; exact E.
Qed.

(** [bytes_rstrip] returns a prefix, whose last byte is no whitespace. *)
Lemma bytes_rstrip_prefix (s : bytes) :
  exists dropped,
    s = bytes_rstrip s ++ dropped /\ forallb is_space_byte dropped = true.
Proof.
  unfold bytes_rstrip.
  destruct (drop_while_suffix is_space_byte (rev s)) as (d & Hs & Hd).
  exists (rev d). split.
  - rewrite <- rev_app_distr, <- Hs, rev_involutive. reflexivity.
  - rewrite forallb_forall in *. intros c Hc. apply Hd, in_rev. exact Hc.
Qed.

Lemma bytes_rstrip_last (s pre : bytes) (c : byte) :
  bytes_rstrip s = pre ++ [c] -> is_space_byte c = false.
Proof.
  unfold bytes_rstrip. intros H.
  assert (H' : drop_while is_space_byte (rev s) = c :: rev pre).
  { rewrite <- (rev_involutive (drop_while _ _)), H, rev_app_distr. reflexivity. }
  eapply drop_while_head; exact H'.
Qed.

Lemma bytes_rstrip_fixed (s : bytes) :
  (forall pre c, s = pre ++ [c] -> is_space_byte c = false) ->
  bytes_rstrip s = s.
Proof.
  intros H. unfold bytes_rstrip. rewrite drop_while_fixed.
  - apply rev_involutive.
  - destruct (rev s) as [|c t] eqn:E; [exact I|].
    apply (H (rev t)). rewrite <- (rev_involutive s), E. reflexivity.
Qed.

Lemma bytes_rstrip_idem (s : bytes) : bytes_rstrip (bytes_rstrip s) = bytes_rstrip s.
Proof.
  apply bytes_rstrip_fixed. intros pre c H. eapply bytes_rstrip_last; exact H.
Qed.

Lemma bytes_rstrip_app_space (s : bytes) (c : byte) :
  is_space_byte c = true -> bytes_rstrip (s ++ [c]) = bytes_rstrip s.
Proof.
  intros H. unfold bytes_rstrip. rewrite rev_app_distr. simpl. rewrite H. reflexivity.
Qed.

Lemma no_line_end_nil : no_line_end [].
Proof. split; intros []. Qed.

Lemma no_line_end_cons (c : byte) (row : bytes) :
  Byte.eqb c NL = false -> Byte.eqb c CR = false ->
  no_line_end row -> no_line_end (c :: row).
Proof.
  intros Hn Hc [H1 H2].
  apply Byte.eqb_false in Hn. apply Byte.eqb_false in Hc.
  split; intros [H|H]; auto; congruence.
Qed.

Lemma no_line_end_rev (row : bytes) : no_line_end row -> no_line_end (rev row).
Proof. intros [H1 H2]. split; intros H; apply in_rev in H; auto. Qed.

Lemma no_line_end_app_inv (a c : bytes) :
  no_line_end (a ++ c) -> no_line_end a /\ no_line_end c.
Proof.
  intros [H1 H2]. split; split; intros H.
  - apply H1, in_or_app; auto.
  - apply H2, in_or_app; auto.
  - apply H1, in_or_app; auto.
  - apply H2, in_or_app; auto.
Qed.

Lemma no_line_end_head (c : byte) (row : bytes) :
  no_line_end (c :: row) ->
  Byte.eqb c NL = false /\ Byte.eqb c CR = false /\ no_line_end row.
Proof.
  intros [H1 H2]. repeat split.
  - destruct (Byte.eqb c NL) eqn:E; [|reflexivity].
    apply Byte.byte_dec_bl in E. exfalso. apply H1. left. auto.
  - destruct (Byte.eqb c CR) eqn:E; [|reflexivity].
    apply Byte.byte_dec_bl in E. exfalso. apply H2. left. auto.
  - intros H. apply H1. right. exact H.
  - intros H. apply H2. right. exact H.
Qed.

Lemma splitlines_from_rows (n : nat) :
  forall s cur,
    List.length s <= n -> no_line_end cur ->
    Forall no_line_end (splitlines_from cur s).
Proof.
  induction n as [|n IH]; intros s cur Hlen Hcur.
  - destruct s; [|simpl in Hlen; lia]. simpl.
    destruct cur; constructor; auto. apply (no_line_end_rev Hcur).
  - destruct s as [|c s]; simpl.
    + destruct cur; constructor; auto. apply (no_line_end_rev Hcur).
    + simpl in Hlen. destruct (Byte.eqb c NL) eqn:En.
      * constructor; [apply (no_line_end_rev Hcur)|].
        apply IH; [lia|apply no_line_end_nil].
      * destruct (Byte.eqb c CR) eqn:Ec.
        -- destruct s as [|d s].
           ++ constructor; [apply (no_line_end_rev Hcur)|constructor].
           ++ simpl in Hlen. destruct (Byte.eqb d NL).
              ** constructor; [apply (no_line_end_rev Hcur)|].
                 apply IH; [lia|apply no_line_end_nil].
              ** constructor; [apply (no_line_end_rev Hcur)|].
                 apply IH; [simpl; lia|apply no_line_end_nil].
        -- apply IH; [lia|]. apply no_line_end_cons; assumption.
Qed.

Lemma splitlines_rows (s : bytes) : Forall no_line_end (splitlines s).
Proof.
  apply (@splitlines_from_rows (List.length s)); [lia|apply no_line_end_nil].
Qed.

Lemma splitlines_from_plain (row : bytes) :
  forall cur rest,
    no_line_end row ->
    splitlines_from cur (row ++ rest) = splitlines_from (rev row ++ cur) rest.
Proof.
  induction row as [|c row IH]; intros cur rest H; [reflexivity|].
  destruct (no_line_end_head H) as (Hn & Hc & Hrow).
  simpl app at 1. cbn [splitlines_from]. rewrite Hn, Hc.
  rewrite IH by exact Hrow. simpl. rewrite <- app_assoc. reflexivity.
Qed.

Lemma join_cons2 (sep row row' : bytes) (rows : list bytes) :
  join sep (row :: row' :: rows) = row ++ sep ++ join sep (row' :: rows).
Proof. reflexivity. Qed.

Lemma splitlines_join (rows : list bytes) :
  Forall no_line_end rows ->
  (forall init, rows <> init ++ [[]]) ->
  splitlines (join [NL] rows) = rows.
Proof.
  unfold splitlines.
  induction rows as [|row rows IH]; intros Hfree Hlast; [reflexivity|].
  inversion Hfree as [|? ? Hrow Hrows]; subst.
  destruct rows as [|row' rows].
  - simpl join. rewrite <- (app_nil_r row) at 1.
    rewrite splitlines_from_plain by exact Hrow. rewrite app_nil_r.
    destruct row as [|c row]; [exfalso; apply (Hlast []); reflexivity|].
    simpl splitlines_from.
    destruct (rev row ++ [c]) eqn:E.
    + destruct (rev row); discriminate E.
    + rewrite <- E. change (rev row ++ [c]) with (rev row ++ [c]).
      rewrite rev_app_distr, rev_involutive. reflexivity.
  - rewrite join_cons2. rewrite splitlines_from_plain by exact Hrow.
    rewrite app_nil_r. simpl app. cbn [splitlines_from].
    change (Byte.eqb NL NL) with true. cbv iota.
    rewrite rev_involutive. f_equal. apply IH; [exact Hrows|].
    intros init Heq. apply (Hlast (row :: init)). simpl. rewrite Heq. reflexivity.
Qed.

Lemma join_snoc (sep : bytes) (init : list bytes) (l : bytes) :
  init <> [] -> join sep (init ++ [l]) = join sep init ++ sep ++ l.
Proof.
  induction init as [|r init IH]; [congruence|]. intros _.
  destruct init as [|r' init].
  - reflexivity.
  - change ((r :: r' :: init) ++ [l]) with (r :: (r' :: init) ++ [l]).
    change ((r' :: init) ++ [l]) with (r' :: init ++ [l]) at 1.
    rewrite !join_cons2.
    change (r' :: init ++ [l]) with ((r' :: init) ++ [l]).
    rewrite IH by discriminate. rewrite <- !app_assoc. reflexivity.
Qed.

Lemma clean_row_suffix (pre s : bytes) : clean_row (pre ++ s) -> clean_row s.
Proof.
  intros [Hfree Hstrip]. split.
  - apply (no_line_end_app_inv _ _ Hfree).
  - apply bytes_rstrip_fixed. intros p c Hs.
    eapply (@bytes_rstrip_last (pre ++ s) (pre ++ p)).
    rewrite Hstrip, Hs, app_assoc. reflexivity.
Qed.

Lemma clean_row_nil : clean_row [].
Proof. split; [apply no_line_end_nil|reflexivity]. Qed.

(** A suffix of joined clean rows is made of joined clean rows. *)
Lemma join_suffix_rows (rows : list bytes) :
  Forall clean_row rows ->
  forall pre s,
    join [NL] rows = pre ++ s ->
    exists rows', s = join [NL] rows' /\ Forall clean_row rows'.
Proof.
  induction rows as [|row rows IH]; intros Hclean pre s Hj.
  - simpl in Hj. symmetry in Hj. apply app_eq_nil in Hj. destruct Hj; subst.
    exists []. split; [reflexivity|constructor].
  - inversion Hclean as [|? ? Hrow Hrows]; subst.
    destruct rows as [|row' rows].
    + simpl in Hj. exists [s]. split; [reflexivity|].
      constructor; [|constructor]. rewrite Hj in Hrow.
      apply (clean_row_suffix _ _ Hrow).
    + rewrite join_cons2 in Hj.
      apply app_eq_app in Hj. destruct Hj as (l & [[Hrow' Hs]|[Hpre Hs]]).
      * (* the suffix starts inside the first row *)
        exists (l :: row' :: rows). split.
        -- rewrite join_cons2. exact Hs.
        -- constructor; [|exact Hrows]. rewrite Hrow' in Hrow.
           apply (clean_row_suffix _ _ Hrow).
      * (* the suffix starts at or after the first newline *)
        destruct l as [|c l].
        -- simpl in Hs. exists ([] :: row' :: rows). split.
           ++ rewrite join_cons2. symmetry. exact Hs.
           ++ constructor; [apply clean_row_nil|exact Hrows].
        -- simpl in Hs. inversion Hs; subst.
           apply (IH Hrows l s). assumption.
Qed.

(** Trimming joined clean rows at the end leaves joined clean rows, the
    last of which is not empty. *)
Lemma join_rstrip_rows (rows : list bytes) :
  Forall clean_row rows ->
  exists rows',
    bytes_rstrip (join [NL] rows) = join [NL] rows'
    /\ Forall clean_row rows'
    /\ (forall init, rows' <> init ++ [[]]).
Proof.
  induction rows as [|lastrow init IH] using rev_ind; intros Hclean.
  - exists []. repeat split; [constructor|].
    intros init H. destruct init; discriminate H.
  - apply Forall_app in Hclean. destruct Hclean as [Hinit Hlast].
    inversion Hlast as [|? ? Hrow _]; subst.
    destruct lastrow as [|c lastrow].
    + destruct init as [|r init].
      * exists []. repeat split; [constructor|].
        intros init H. destruct init; discriminate H.
      * rewrite join_snoc by discriminate.
        change ([NL] ++ []) with [NL].
        rewrite bytes_rstrip_app_space by reflexivity.
        apply IH. exact Hinit.
    + exists (init ++ [c :: lastrow]). split; [|split].
      * apply bytes_rstrip_fixed. intros p d Hs.
        destruct Hrow as [_ Hstrip].
        assert (Hex : exists q, c :: lastrow = q ++ [d]).
        { destruct init as [|r init].
          - simpl in Hs. eauto.
          - rewrite join_snoc in Hs by discriminate.
            destruct (@exists_last _ (c :: lastrow) ltac:(discriminate))
              as (q & e & Hq).
            rewrite Hq in Hs. rewrite !app_assoc in Hs.
            apply app_inj_tail in Hs. destruct Hs as [_ He]. subst e. eauto. }
        destruct Hex as [q Hq].
        eapply (@bytes_rstrip_last (c :: lastrow) q). rewrite Hstrip. exact Hq.
      * apply Forall_app. split; [exact Hinit|constructor; auto].
      * intros init' H. apply app_inj_tail in H. destruct H as [_ H]. discriminate H.
Qed.

Lemma trims_commute_on_result (chars x : bytes) :
  bytes_lstrip chars (bytes_rstrip (bytes_lstrip chars x))
  = bytes_rstrip (bytes_lstrip chars x).
Proof.
  unfold bytes_lstrip at 1. apply drop_while_fixed.
  destruct (bytes_rstrip (bytes_lstrip chars x)) as [|c t] eqn:E; [exact I|].
  destruct (bytes_rstrip_prefix (bytes_lstrip chars x)) as (d & Hy & _).
  rewrite E in Hy. simpl in Hy. unfold bytes_lstrip in Hy.
  eapply (@drop_while_head (fun c => existsb (Byte.eqb c) chars)); exact Hy.
Qed.

Section ProcessOutputFacts.

Variable re_sub_pattern : Pattern -> bytes -> bytes.
Variable args : BaseChannelArgs.

Local Abbreviation process_output := (_process_output re_sub_pattern args).

(** X12. Whatever the buffer, the flag and the prompt substitution, the
    result of [_process_output] does not end in ASCII whitespace and does
    not start with a byte of the return character. *)
Theorem process_output_is_trimmed (buf : bytes) (strip_prompt : bool) :
  let out := process_output buf strip_prompt in
  (forall pre c, out = pre ++ [c] -> is_space_byte c = false)
  /\ (forall c rest, out = c :: rest ->
        existsb (Byte.eqb c) (encode (comms_return_char args)) = false)
  /\ bytes_rstrip out = out
  /\ bytes_lstrip (encode (comms_return_char args)) out = out.
Proof.
  cbv zeta. unfold _process_output.
  set (joined := join [NL] (map bytes_rstrip (splitlines buf))).
  set (stripped := if strip_prompt then _ else joined).
  set (chars := encode (comms_return_char args)).
  set (y := bytes_lstrip chars stripped).
  assert (Hlast : forall pre c, bytes_rstrip y = pre ++ [c] -> is_space_byte c = false)
    by (intros pre c H; eapply bytes_rstrip_last; exact H).
  assert (Hfirst : forall c rest, bytes_rstrip y = c :: rest ->
                     existsb (Byte.eqb c) chars = false).
  { intros c rest H.
    destruct (bytes_rstrip_prefix y) as (d & Hy & _).
    rewrite H in Hy. simpl in Hy.
    unfold y, bytes_lstrip in Hy.
    eapply (@drop_while_head (fun c => existsb (Byte.eqb c) chars)); exact Hy. }
  split; [exact Hlast|]. split; [exact Hfirst|]. split.
  - apply bytes_rstrip_idem.
  - unfold bytes_lstrip. apply drop_while_fixed.
    destruct (bytes_rstrip y) as [|c t] eqn:E; [exact I|].
    apply (Hfirst c t). reflexivity.
Qed.

Lemma rstripped_rows_clean (buf : bytes) :
  Forall clean_row (map bytes_rstrip (splitlines buf)).
Proof.
  apply Forall_map. eapply Forall_impl; [|apply splitlines_rows].
  intros row Hrow. split; [|apply bytes_rstrip_idem].
  destruct (bytes_rstrip_prefix row) as (d & Hs & _).
  rewrite Hs in Hrow. apply (no_line_end_app_inv _ _ Hrow).
Qed.

Lemma process_output_rows (buf : bytes) :
  exists rows,
    process_output buf false = join [NL] rows
    /\ Forall clean_row rows
    /\ (forall init, rows <> init ++ [[]]).
Proof.
  unfold _process_output.
  set (chars := encode (comms_return_char args)).
  set (joined := join [NL] (map bytes_rstrip (splitlines buf))).
  destruct (drop_while_suffix (fun c => existsb (Byte.eqb c) chars) joined)
    as (dropped & Hj & _).
  destruct (@join_suffix_rows _ (rstripped_rows_clean buf) dropped _ Hj)
    as (rows1 & Hs & Hclean1).
  unfold bytes_lstrip. rewrite Hs.
  apply join_rstrip_rows. exact Hclean1.
Qed.

(** X13. Without prompt stripping [_process_output] is idempotent; its
    result holds no carriage return, and it is its own lines, none with
    trailing whitespace, joined by newlines. *)
Theorem process_output_idempotent (buf : bytes) :
  let out := process_output buf false in
  process_output out false = out
  /\ ~ In CR out
  /\ exists rows,
       out = join [NL] rows /\ splitlines out = rows
       /\ Forall (fun row => bytes_rstrip row = row) rows.
Proof.
  cbv zeta.
  destruct (process_output_rows buf) as (rows & Hout & Hclean & Hlast).
  assert (Hfree : Forall no_line_end rows)
    by (eapply Forall_impl; [|exact Hclean]; intros row [H _]; exact H).
  assert (Hstripped : Forall (fun row => bytes_rstrip row = row) rows)
    by (eapply Forall_impl; [|exact Hclean]; intros row [_ H]; exact H).
  assert (Hsplit : splitlines (process_output buf false) = rows)
    by (rewrite Hout; apply splitlines_join; assumption).
  split; [|split].
  - unfold _process_output at 1. rewrite Hsplit.
    assert (Hmap : map bytes_rstrip rows = rows).
    { clear - Hstripped. induction Hstripped; simpl; congruence. }
    rewrite Hmap, <- Hout. unfold _process_output.
    rewrite trims_commute_on_result. apply bytes_rstrip_idem.
  - rewrite Hout. clear - Hfree. intros Hin.
    induction Hfree as [|row rows Hrow Hrows IH]; [contradiction|].
    destruct rows as [|row' rows].
    + simpl in Hin. destruct Hrow as [_ H]. auto.
    + rewrite join_cons2 in Hin. apply in_app_or in Hin.
      destruct Hin as [Hin|Hin]; [destruct Hrow as [_ H]; auto|].
      simpl in Hin. destruct Hin as [Hin|Hin]; [discriminate Hin|auto].
  - exists rows. auto.
Qed.

End ProcessOutputFacts.

(** * Further properties of the channel operations *)

Lemma writes_of_app (t1 t2 : list event) :
  writes_of (t1 ++ t2) = writes_of t1 ++ writes_of t2.
Proof.
  induction t1 as [|e t1 IH]; [reflexivity|].
  destruct e; simpl; rewrite IH; reflexivity.
Qed.

Lemma writes_of_reads (raws : list bytes) : writes_of (map EvRead raws) = [].
Proof. induction raws; simpl; auto. Qed.

Lemma last_blocking_app (t1 t2 : list event) :
  forall current,
    last_blocking (t1 ++ t2) current = last_blocking t2 (last_blocking t1 current).
Proof.
  induction t1 as [|e t1 IH]; intros current; [reflexivity|].
  destruct e; simpl; apply IH.
Qed.

Lemma last_blocking_reads (raws : list bytes) (current : option bool) :
  last_blocking (map EvRead raws) current = current.
Proof. induction raws; simpl; auto. Qed.

Lemma decode_escaped_plain (lookup : bytes -> option N) (s : bytes) :
  forall fuel,
    List.length s <= fuel -> ~ In x5c s ->
    decode_escaped lookup fuel s = Some (map code s).
Proof.
  induction s as [|c s IH]; intros fuel Hlen Hno; [destruct fuel; reflexivity|].
  destruct fuel as [|fuel]; [simpl in Hlen; lia|].
  cbn [decode_escaped].
  destruct (Byte.eqb c x5c) eqn:E.
  - apply Byte.byte_dec_bl in E. exfalso. apply Hno. left. auto.
  - rewrite IH; [reflexivity|simpl in Hlen; lia|].
    intros H. apply Hno. right. exact H.
Qed.

Lemma decode_unicode_escape_plain (lookup : bytes -> option N) (s : bytes) :
  ~ In x5c s -> decode_unicode_escape lookup s = Some (map code s).
Proof. intros H. apply decode_escaped_plain; [lia|exact H]. Qed.

Section ChannelMore.

Variable pattern_t : Type.
Variable get_prompt_pattern : str -> str -> pattern_t.
Variable re_search : pattern_t -> text -> bool.
Variable re_sub_MI : bytes -> bytes -> option bytes.
Variable normalize_lines : bytes -> bytes.
Variable strip_ansi : bytes -> bytes.
Variable bytes_decode : bytes -> option str.
Variable unicodedata_lookup : bytes -> option N.
Variable host : str.
Variable self : Channel.

Local Abbreviation read_chunk := (Nssh._read_chunk strip_ansi self).
Local Abbreviation chunk_of := (Nssh.chunk_of strip_ansi self).
Local Abbreviation chunks_of := (Nssh.chunks_of strip_ansi self).
Local Abbreviation input_loop := (Nssh.read_until_input_loop strip_ansi self).
Local Abbreviation prompt_loop :=
  (Nssh.read_until_prompt_loop re_search strip_ansi unicodedata_lookup self).
Local Abbreviation read_until_input := (Nssh._read_until_input strip_ansi self).
Local Abbreviation read_until_prompt :=
  (Nssh._read_until_prompt get_prompt_pattern re_search strip_ansi
     unicodedata_lookup self).
Local Abbreviation restructure_output :=
  (Nssh._restructure_output re_sub_MI normalize_lines self).
Local Abbreviation send_input_body :=
  (Nssh._send_input_body get_prompt_pattern re_search re_sub_MI normalize_lines
     strip_ansi unicodedata_lookup self).
Local Abbreviation send_input :=
  (Nssh._send_input get_prompt_pattern re_search re_sub_MI normalize_lines
     strip_ansi unicodedata_lookup self).
Local Abbreviation send_input_interact :=
  (Nssh._send_input_interact get_prompt_pattern re_search re_sub_MI
     normalize_lines strip_ansi unicodedata_lookup self).
Local Abbreviation send_inputs :=
  (Nssh.send_inputs get_prompt_pattern re_search re_sub_MI normalize_lines
     strip_ansi bytes_decode unicodedata_lookup host self).
Local Abbreviation send_inputs_loop :=
  (Nssh.send_inputs_loop get_prompt_pattern re_search re_sub_MI normalize_lines
     strip_ansi bytes_decode unicodedata_lookup host self).
Local Abbreviation prompt_seen :=
  (Nssh.prompt_seen get_prompt_pattern re_search unicodedata_lookup self).
Local Abbreviation return_char := (ch_comms_return_char self).

(** X14. Without prompt stripping [_restructure_output] always returns,
    touches nothing of the transport, and returns the non-empty lines of
    the normalized output joined by newlines: no row of the result is
    empty or holds a line end, and splitting the result into lines gives
    the same rows back. With prompt stripping it can only fail where the
    prompt pattern does not compile. *)
Theorem restructure_output_rows (output : bytes) (w : world) :
  let rows := filter nonempty (splitlines (normalize_lines output)) in
  restructure_output output false w = Done (join [NL] rows) w
  /\ Forall (fun row => row <> [] /\ no_line_end row) rows
  /\ splitlines (join [NL] rows) = rows
  /\ (forall strip_prompt,
        match restructure_output output strip_prompt w with
        | Done _ w' => w' = w
        | Failed e w' => e = ReError /\ w' = w /\ strip_prompt = true
        | Expired _ => False
        end).
Proof.
  cbv zeta.
  set (rows := filter nonempty (splitlines (normalize_lines output))).
  assert (Hrows : Forall (fun row => row <> [] /\ no_line_end row) rows).
  { apply Forall_forall. intros row Hin. unfold rows in Hin.
    apply filter_In in Hin. destruct Hin as [Hin Hne]. split.
    - destruct row; [discriminate Hne|discriminate].
    - pose proof (splitlines_rows (normalize_lines output)) as H.
      rewrite Forall_forall in H. apply H. exact Hin. }
  split; [reflexivity|]. split; [exact Hrows|]. split.
  - apply splitlines_join.
    + eapply Forall_impl; [|exact Hrows]. intros row [_ H]. exact H.
    + intros init Heq. rewrite Heq in Hrows.
      apply Forall_app in Hrows. destruct Hrows as [_ Hlast].
      inversion Hlast as [|? ? [Hne _] _]. congruence.
  - intros strip_prompt. unfold Nssh._restructure_output.
    destruct strip_prompt; simpl; [|reflexivity].
    destruct (re_sub_MI _ _); simpl; auto.
Qed.


Lemma read_chunk_step (w : world) :
  read_chunk w
  = match clock w with
    | O => Expired w
    | S t =>
        let raw := match incoming w with chunk :: _ => chunk | [] => [] end in
        Done (chunk_of raw)
             (log (EvRead raw) (mkWorld (locked w) (tl (incoming w)) t (trace w)))
    end.
Proof.
  unfold Nssh._read_chunk, bind, Transport.read, Nssh.chunk_of, ret.
  destruct (clock w); [reflexivity|].
  destruct (incoming w); reflexivity.
Qed.

Lemma chunks_of_app (a c : list bytes) :
  chunks_of (a ++ c) = chunks_of a ++ chunks_of c.
Proof. unfold Nssh.chunks_of. rewrite map_app, concat_app. reflexivity. Qed.

Lemma chunks_of_one (raw : bytes) : chunks_of [raw] = chunk_of raw.
Proof. unfold Nssh.chunks_of. simpl. apply app_nil_r. Qed.

Lemma input_loop_reads (turns : nat) (channel_input : bytes) :
  forall output w,
    clock w < turns ->
    match input_loop turns channel_input output w with
    | Done output' w' =>
        exists raws,
          trace w' = trace w ++ map EvRead raws
          /\ output' = output ++ chunks_of raws
          /\ clock w = clock w' + List.length raws
          /\ (exists pre, incoming w = pre ++ incoming w')
          /\ contains output' channel_input = true
          /\ (forall init last,
                raws = init ++ [last] ->
                contains (output ++ chunks_of init) channel_input = false)
    | Failed _ _ => False
    | Expired w' =>
        exists raws,
          trace w' = trace w ++ map EvRead raws
          /\ List.length raws = clock w
          /\ locked w' = locked w
          /\ contains (output ++ chunks_of raws) channel_input = false
    end.
Proof.
  induction turns as [|turns IH]; intros output w Hclock; [lia|].
  cbn [Nssh.read_until_input_loop].
  destruct (contains output channel_input) eqn:E.
  - unfold ret. exists []. simpl. rewrite !app_nil_r.
    repeat split; auto; try lia.
    + exists []. reflexivity.
    + intros init last H. destruct init; discriminate H.
  - unfold bind. rewrite read_chunk_step.
    destruct (clock w) as [|t] eqn:Ec.
    + exists []. simpl. rewrite !app_nil_r. auto.
    + cbv zeta.
      set (raw := match incoming w with chunk :: _ => chunk | [] => [] end).
      set (w1 := log (EvRead raw) _).
      assert (Hc1 : clock w1 < turns) by (simpl; lia).
      specialize (IH (output ++ chunk_of raw) w1 Hc1).
      destruct (input_loop turns channel_input (output ++ chunk_of raw) w1)
        as [output' w'|e w'|w']; auto.
      * destruct IH as (raws & Ht & Ho & Hk & (pre & Hi) & Hc & Hmin).
        exists (raw :: raws). simpl in Ht, Hk, Hi.
        split; [rewrite Ht, <- app_assoc; reflexivity|].
        split; [rewrite Ho, <- app_assoc; reflexivity|].
        split; [simpl; lia|].
        split.
        { destruct (incoming w) as [|chunk rest]; simpl in Hi.
          - exists []. simpl. destruct pre; [exact Hi|discriminate Hi].
          - exists (chunk :: pre). simpl. f_equal. exact Hi. }
        split; [exact Hc|].
        intros init last Hr. destruct init as [|r init].
        -- simpl. rewrite app_nil_r. exact E.
        -- simpl in Hr. inversion Hr; subst.
           specialize (Hmin init last eq_refl).
           change (chunks_of (raw :: init)) with (chunk_of raw ++ chunks_of init).
           rewrite app_assoc. exact Hmin.
      * destruct IH as (raws & Ht & Hl & Hlk & Hc).
        exists (raw :: raws). simpl in Ht, Hl.
        split; [rewrite Ht, <- app_assoc; reflexivity|].
        split; [simpl; lia|]. split; [exact Hlk|].
        change (chunks_of (raw :: raws)) with (chunk_of raw ++ chunks_of raws).
        rewrite app_assoc. exact Hc.
Qed.

(** X16. [_read_until_input] reads nothing for an empty input. Otherwise,
    when it returns, it has stopped as soon as the input occurred in what
    it had read: the output is the chunks read, each read costs one unit
    of time, and before the last read the input did not occur yet. When
    time runs out the input has not occurred in anything read. Nothing
    is said of a run that ends in a failure. *)
Theorem read_until_input_reads_no_more (channel_input : bytes) (w : world) :
  read_until_input [] w = Done [] w
  /\ match read_until_input channel_input w with
     | Done output w' =>
         exists raws,
           trace w' = trace w ++ map EvRead raws
           /\ output = chunks_of raws
           /\ clock w = clock w' + List.length raws
           /\ contains output channel_input = true
           /\ (forall init last,
                 raws = init ++ [last] ->
                 contains (chunks_of init) channel_input = false)
     | Failed _ _ => True
     | Expired w' =>
         exists raws,
           trace w' = trace w ++ map EvRead raws
           /\ List.length raws = clock w
           /\ contains (chunks_of raws) channel_input = false
     end.
Proof.
  split; [reflexivity|].
  unfold Nssh._read_until_input.
  pose proof (@input_loop_reads (S (clock w)) channel_input [] w ltac:(lia)) as H.
  destruct (input_loop (S (clock w)) channel_input [] w) as [output w'|e w'|w'];
    auto.
  - destruct H as (raws & Ht & Ho & Hk & _ & Hc & Hmin).
    exists raws. repeat split; auto.
  - destruct H as (raws & Ht & Hl & _ & Hc). exists raws. auto.
Qed.

Lemma prompt_loop_reads (turns : nat) (pat : pattern_t) :
  forall output w,
    match prompt_loop turns pat output w with
    | Done _ w' =>
        exists raw raws,
          trace w' = trace w ++ map EvRead (raw :: raws) ++ [EvSetBlocking true]
    | Failed e w' =>
        e = UnicodeDecodeError
        /\ exists raw raws, trace w' = trace w ++ map EvRead (raw :: raws)
    | Expired w' => exists raws, trace w' = trace w ++ map EvRead raws
    end.
Proof.
  induction turns as [|turns IH]; intros output w; simpl.
  - exists []. simpl. rewrite app_nil_r. reflexivity.
  - unfold bind at 1. rewrite read_chunk_step.
    destruct (clock w) as [|t].
    + exists []. simpl. rewrite app_nil_r. reflexivity.
    + cbv zeta.
      set (raw := match incoming w with chunk :: _ => chunk | [] => [] end).
      set (w1 := log (EvRead raw) _).
      cbv beta iota.
      destruct (decode_unicode_escape unicodedata_lookup (output ++ chunk_of raw))
        as [decoded|].
      * destruct (re_search pat (cr_to_nl (strip decoded))).
        -- unfold bind, Transport.set_blocking, ret. simpl.
           exists raw, []. simpl. rewrite <- app_assoc. reflexivity.
        -- specialize (IH (output ++ chunk_of raw) w1).
           destruct (prompt_loop turns pat (output ++ chunk_of raw) w1)
             as [output' w'|e w'|w'].
           ++ destruct IH as (r & raws & Ht). exists raw, (r :: raws).
              rewrite Ht. simpl. rewrite <- app_assoc. reflexivity.
           ++ destruct IH as (He & r & raws & Ht). split; [exact He|].
              exists raw, (r :: raws). rewrite Ht. simpl.
              rewrite <- app_assoc. reflexivity.
           ++ destruct IH as (raws & Ht). exists (raw :: raws).
              rewrite Ht. simpl. rewrite <- app_assoc. reflexivity.
      * unfold fail. split; [reflexivity|]. exists raw, []. reflexivity.
Qed.

(** X15. When [_read_until_prompt] returns it has set the transport
    non-blocking, read at least once, and set it blocking again as the
    last thing it did. When it ends in a decoding failure it has set the
    transport non-blocking and read at least once, and when time runs
    out it has set the transport non-blocking: in both cases the last
    mode set is non-blocking. Nothing is said of other failures. *)
Theorem read_until_prompt_restores_blocking_on_success_only
  (output : bytes) (prompt : str) (w : world) :
  match read_until_prompt output prompt w with
  | Done _ w' =>
      last_blocking (trace w') None = Some true
      /\ exists raw raws,
           trace w' = trace w ++ [EvSetBlocking false]
                      ++ map EvRead (raw :: raws) ++ [EvSetBlocking true]
  | Failed e w' =>
      e = UnicodeDecodeError ->
      last_blocking (trace w') None = Some false
      /\ exists raw raws,
           trace w' = trace w ++ [EvSetBlocking false] ++ map EvRead (raw :: raws)
  | Expired w' => last_blocking (trace w') None = Some false
  end.
Proof.
  unfold Nssh._read_until_prompt, bind, Transport.set_blocking.
  set (w1 := log (EvSetBlocking false) w).
  set (pat := get_prompt_pattern prompt (ch_comms_prompt_pattern self)).
  pose proof (prompt_loop_reads (S (clock w1)) pat output w1) as H.
  destruct (prompt_loop (S (clock w1)) pat output w1) as [out w'|e w'|w'].
  - destruct H as (raw & raws & Ht). split.
    + rewrite Ht. unfold w1; simpl trace.
      rewrite !last_blocking_app. reflexivity.
    + exists raw, raws. rewrite Ht. unfold w1; simpl trace.
      rewrite <- app_assoc. reflexivity.
  - destruct H as (_ & raw & raws & Ht). intros _. split.
    + rewrite Ht. unfold w1; simpl trace.
      rewrite !last_blocking_app, last_blocking_reads. reflexivity.
    + exists raw, raws. rewrite Ht. unfold w1; simpl trace.
      rewrite <- app_assoc. reflexivity.
  - destruct H as (raws & Ht).
    rewrite Ht. unfold w1; simpl trace.
    rewrite !last_blocking_app, last_blocking_reads. reflexivity.
Qed.


Lemma prompt_loop_plain (turns : nat) (pat : pattern_t) :
  ch_comms_ansi self = false ->
  forall output w,
    ~ In x5c output ->
    Forall (fun chunk => ~ In x5c chunk) (incoming w) ->
    match prompt_loop turns pat output w with
    | Failed _ _ => False
    | _ => True
    end.
Proof.
  intros Hansi.
  induction turns as [|turns IH]; intros output w Hout Hin; simpl; [exact I|].
  unfold bind at 1. rewrite read_chunk_step.
  destruct (clock w) as [|t]; [exact I|]. cbv zeta.
  set (raw := match incoming w with chunk :: _ => chunk | [] => [] end).
  set (w1 := log (EvRead raw) _).
  cbv beta iota.
  assert (Hraw : ~ In x5c raw).
  { unfold raw. destruct (incoming w); [intros []|].
    inversion Hin; subst. assumption. }
  assert (Hchunk : chunk_of raw = raw)
    by (unfold Nssh.chunk_of; rewrite Hansi; reflexivity).
  rewrite Hchunk.
  assert (Hout1 : ~ In x5c (output ++ raw)).
  { intros H. apply in_app_or in H. destruct H; auto. }
  rewrite (@decode_unicode_escape_plain unicodedata_lookup _ Hout1).
  destruct (re_search pat (cr_to_nl (strip (map code (output ++ raw))))).
  - unfold bind, Transport.set_blocking, ret. exact I.
  - apply IH; [exact Hout1|].
    unfold w1; simpl. destruct (incoming w); simpl; [constructor|].
    inversion Hin; subst. assumption.
Qed.

(** X19. With [comms_ansi] off, [_send_input] cannot fail with a
    decoding error unless a chunk sent by the device holds a backslash. *)
Theorem send_input_decode_error_needs_backslash
  (channel_input : str) (strip_prompt : bool) (w : world) :
  ch_comms_ansi self = false ->
  Forall (fun chunk => ~ In x5c chunk) (incoming w) ->
  forall w', send_input channel_input strip_prompt w <> Failed UnicodeDecodeError w'.
Proof.
  intros Hansi Hplain w'.
  unfold Nssh._send_input, Nssh.operation_timeout.
  set (w0 := mkWorld (locked w) (incoming w) (ch_timeout_ops self) (trace w)).
  unfold Nssh._send_input_body, Nssh._send_return.
  unfold bind at 1. unfold Transport.session_lock_acquire.
  destruct (locked w0); [discriminate|].
  unfold bind at 1. unfold Transport.flush at 1.
  unfold bind at 1. unfold Transport.write at 1.
  set (w1 := log (EvWrite channel_input) _).
  assert (Hin1 : Forall (fun chunk => ~ In x5c chunk) (incoming w1)) by exact Hplain.
  clearbody w1.
  unfold bind at 1.
  pose proof (@input_loop_reads (S (clock w1)) (encode channel_input) [] w1
                ltac:(lia)) as H1.
  unfold Nssh._read_until_input.
  destruct (input_loop (S (clock w1)) (encode channel_input) [] w1)
    as [out1 w2|e w2|w2]; [|contradiction|discriminate].
  destruct H1 as (raws & _ & _ & _ & (pre & Hsuffix) & _).
  assert (Hin2 : Forall (fun chunk => ~ In x5c chunk) (incoming w2)).
  { rewrite Hsuffix in Hin1. apply Forall_app in Hin1. apply Hin1. }
  unfold bind at 1. unfold bind at 1.
  unfold Transport.flush at 1, Transport.write at 1.
  set (w3 := log (EvWrite return_char) _).
  assert (Hin3 : Forall (fun chunk => ~ In x5c chunk) (incoming w3)) by exact Hin2.
  clearbody w3.
  unfold bind at 1.
  unfold Nssh._read_until_prompt. unfold bind at 1. unfold Transport.set_blocking at 1.
  set (w4 := log (EvSetBlocking false) w3).
  set (pat := get_prompt_pattern "" (ch_comms_prompt_pattern self)).
  pose proof (@prompt_loop_plain (S (clock w4)) pat Hansi [] w4
                ltac:(intros []) Hin3) as H2.
  destruct (prompt_loop (S (clock w4)) pat [] w4) as [output w5|e w5|w5];
    [|contradiction|discriminate].
  unfold bind at 1. unfold Transport.session_lock_release.
  destruct (locked w5); [|discriminate].
  unfold bind at 1.
  unfold Nssh._restructure_output.
  destruct strip_prompt; simpl; [|discriminate].
  destruct (re_sub_MI _ _); simpl; discriminate.
Qed.

Lemma send_input_done (channel_input : str) (strip_prompt : bool) (w : world) :
  locked w = false ->
  match send_input channel_input strip_prompt w with
  | Done (output, processed) w' =>
      locked w' = false
      /\ restructure_output output strip_prompt w' = Done processed w'
      /\ exists echo reads,
           trace w' = trace w
                      ++ [EvAcquire; EvFlush; EvWrite channel_input]
                      ++ map EvRead echo
                      ++ [EvFlush; EvWrite return_char; EvSetBlocking false]
                      ++ map EvRead reads
                      ++ [EvSetBlocking true; EvRelease]
           /\ contains (chunks_of echo) (encode channel_input) = true
           /\ output = chunks_of reads
           /\ prompt_seen "" output
  | _ => True
  end.
Proof.
  intros Hfree. unfold Nssh._send_input, Nssh.operation_timeout.
  set (w0 := mkWorld (locked w) (incoming w) (ch_timeout_ops self) (trace w)).
  assert (Hfree0 : locked w0 = false) by exact Hfree.
  assert (Ht0 : trace w0 = trace w) by reflexivity.
  clearbody w0.
  unfold Nssh._send_input_body, Nssh._send_return.
  unfold bind at 1. unfold Transport.session_lock_acquire. rewrite Hfree0.
  unfold bind at 1. unfold Transport.flush at 1.
  unfold bind at 1. unfold Transport.write at 1.
  set (w1 := log (EvWrite channel_input) _).
  assert (Hl1 : locked w1 = true) by reflexivity.
  assert (Ht1 : trace w1 = trace w ++ [EvAcquire; EvFlush; EvWrite channel_input])
    by (unfold w1; simpl; rewrite Ht0, <- !app_assoc; reflexivity).
  clearbody w1.
  unfold bind at 1.
  pose proof (read_until_input_run strip_ansi self (encode channel_input) w1) as H1.
  destruct (read_until_input (encode channel_input) w1) as [out1 w2|e w2|w2];
    [|exact I|exact I].
  destruct H1 as (Hl2 & Hecho & echo & Ht2 & Ho1).
  unfold bind at 1. unfold bind at 1.
  unfold Transport.flush at 1, Transport.write at 1.
  set (w3 := log (EvWrite return_char) _).
  assert (Hl3 : locked w3 = true) by (unfold w3; simpl; congruence).
  assert (Ht3 : trace w3 = trace w2 ++ [EvFlush; EvWrite return_char])
    by (unfold w3; simpl; rewrite <- !app_assoc; reflexivity).
  clearbody w3.
  unfold bind at 1.
  pose proof (read_until_prompt_run get_prompt_pattern re_search strip_ansi
                unicodedata_lookup self "" w3) as H2.
  destruct (read_until_prompt [] "" w3) as [output w4|e w4|w4];
    [|exact I|exact I].
  destruct H2 as (Hl4 & Hseen & reads & Ht4 & Ho).
  unfold bind at 1. unfold Transport.session_lock_release.
  rewrite Hl4, Hl3.
  set (w5 := log EvRelease _).
  unfold bind at 1.
  pose proof (restructure_output_run re_sub_MI normalize_lines self output
                strip_prompt w5) as H3.
  destruct (restructure_output output strip_prompt w5)
    as [processed w6|e w6|w6] eqn:R; [|exact I|exact I].
  subst w6. unfold ret. split; [reflexivity|]. split; [exact R|].
  exists echo, reads. repeat split; auto.
  - unfold w5; simpl. rewrite Ht4, Ht3, Ht2, Ht1. rewrite <- !app_assoc. reflexivity.
  - congruence.
Qed.


(** X18. When [_send_input] completes from a free lock, the lock is free
    again, the writes made are the input and then the return character,
    the raw output is the chunks read after the return character was
    written (the chunks read while waiting for the echo are not in it),
    the prompt was seen in it, and the processed output is
    [_restructure_output] of the raw output. *)
Theorem send_input_returns_what_follows_the_return
  (channel_input : str) (strip_prompt : bool) (w w' : world)
  (output processed : bytes) :
  locked w = false ->
  send_input channel_input strip_prompt w = Done (output, processed) w' ->
  locked w' = false
  /\ restructure_output output strip_prompt w' = Done processed w'
  /\ writes_of (trace w') = writes_of (trace w) ++ [channel_input; return_char]
  /\ exists echo reads,
       trace w' = trace w
                  ++ [EvAcquire; EvFlush; EvWrite channel_input]
                  ++ map EvRead echo
                  ++ [EvFlush; EvWrite return_char; EvSetBlocking false]
                  ++ map EvRead reads
                  ++ [EvSetBlocking true; EvRelease]
       /\ contains (chunks_of echo) (encode channel_input) = true
       /\ output = chunks_of reads
       /\ prompt_seen "" output.
Proof.
  intros Hfree Hrun.
  pose proof (@send_input_done channel_input strip_prompt w Hfree) as H.
  rewrite Hrun in H.
  destruct H as (Hl & Hr & echo & reads & Ht & He & Ho & Hp).
  split; [exact Hl|]. split; [exact Hr|]. split.
  - rewrite Ht. rewrite !writes_of_app, !writes_of_reads. reflexivity.
  - exists echo, reads. auto.
Qed.

Lemma send_inputs_loop_run (strip_prompt : bool) (inputs : list str) :
  forall acc w results w',
    locked w = false ->
    send_inputs_loop inputs strip_prompt acc w = Done results w' ->
    locked w' = false
    /\ writes_of (trace w')
       = writes_of (trace w) ++ flat_map (fun i => [i; return_char]) inputs
    /\ exists new,
         results = acc ++ new
         /\ map res_channel_input new = inputs
         /\ Forall (fun r => res_host r = host
                             /\ res_expectation r = None
                             /\ res_response r = None
                             /\ res_finale r = None) new.
Proof.
  induction inputs as [|input inputs IH]; intros acc w results w' Hfree Hrun.
  - simpl in Hrun. unfold ret in Hrun. inversion Hrun; subst.
    split; [exact Hfree|]. split; [simpl; rewrite app_nil_r; reflexivity|].
    exists []. rewrite app_nil_r. repeat split. constructor.
  - cbn [Nssh.send_inputs_loop] in Hrun. unfold bind at 1 in Hrun.
    pose proof (@send_input_done input strip_prompt w Hfree) as H.
    destruct (send_input input strip_prompt w) as [[raw processed] w1|e w1|w1];
      try discriminate Hrun.
    destruct H as (Hl1 & _ & echo & reads & Ht & _).
    unfold Nssh.decode_or_fail in Hrun.
    unfold bind at 1 in Hrun.
    destruct (bytes_decode raw) as [raw_text|]; [|discriminate Hrun].
    unfold ret at 1 in Hrun. unfold bind at 1 in Hrun.
    destruct (bytes_decode processed) as [processed_text|]; [|discriminate Hrun].
    unfold ret at 1 in Hrun.
    destruct (IH _ _ _ _ Hl1 Hrun) as (Hl & Hw & new & Hres & Hmap & Hall).
    split; [exact Hl|]. split.
    + rewrite Hw, Ht. rewrite !writes_of_app, !writes_of_reads. simpl.
      rewrite <- app_assoc. reflexivity.
    + eexists (_ :: new). split; [|split].
      * rewrite Hres, <- app_assoc. reflexivity.
      * simpl. rewrite Hmap. reflexivity.
      * constructor; [simpl; auto|exact Hall].
Qed.

(** X17. When [send_inputs] completes from a free lock, there is one
    result for each input, in the order of the inputs and labelled with
    the host, the writes made are each input followed by the return
    character, in order, and the lock is free. *)
Theorem send_inputs_sends_each_in_order
  (inputs : inputs_arg) (strip_prompt : bool) (w w' : world)
  (results : list Result) :
  locked w = false ->
  send_inputs (raw_inputs inputs) strip_prompt w = Done results w' ->
  locked w' = false
  /\ map res_channel_input results = raw_inputs inputs
  /\ Forall (fun r => res_host r = host) results
  /\ writes_of (trace w')
     = writes_of (trace w)
       ++ flat_map (fun i => [i; return_char]) (raw_inputs inputs).
Proof.
  intros Hfree Hrun. unfold Nssh.send_inputs in Hrun.
  destruct (@send_inputs_loop_run strip_prompt _ _ _ _ _ Hfree Hrun)
    as (Hl & Hw & new & Hres & Hmap & Hall).
  simpl in Hres. subst results.
  repeat split; auto.
  eapply Forall_impl; [|exact Hall]. intros r (H & _). exact H.
Qed.

(** X20. When [_send_input_interact] completes from a free lock, the
    writes made are the input, the return character, the response and the
    return character, and the raw output is the chunks read up to the
    expectation, then one return character if the response is empty or
    hidden, then the chunks read up to the finale: the response itself is
    not put into the raw output by the channel. *)
Theorem send_input_interact_raw_output
  (channel_input expectation response finale : str) (hidden_response : bool)
  (w w' : world) (output processed : bytes) :
  locked w = false ->
  send_input_interact channel_input expectation response finale
    hidden_response w = Done (output, processed) w' ->
  writes_of (trace w')
  = writes_of (trace w) ++ [channel_input; return_char; response; return_char]
  /\ exists reads1 reads2,
       output = chunks_of reads1
                ++ (if is_empty response || hidden_response
                    then encode return_char else [])
                ++ chunks_of reads2
       /\ prompt_seen expectation (chunks_of reads1)
       /\ prompt_seen finale (chunks_of reads2).
Proof.
  intros Hfree Hrun.
  pose proof (send_input_interact_run get_prompt_pattern re_search re_sub_MI
                normalize_lines strip_ansi unicodedata_lookup self
                channel_input expectation response finale hidden_response
                w Hfree) as H.
  rewrite Hrun in H.
  destruct H as (_ & echo & reads1 & reads2 & Ht & _ & H1 & H2 & Ho).
  split.
  - rewrite Ht. rewrite !writes_of_app, !writes_of_reads. reflexivity.
  - exists reads1, reads2. auto.
Qed.

End ChannelMore.

(** * The further properties, run on a device *)

Lemma send_input_decode_error_needs_backslash_witness :
  let w := Lab.device [b "show clock"; NL :: b "12:00:00 UTC"; NL :: b "r1#"] in
  ~ exists w', Lab.send_input "show clock" true w = Failed UnicodeDecodeError w'.
Proof.
  intros w [w' H]. revert H.
  apply (@send_input_decode_error_needs_backslash _ Lab.get_prompt_pattern
           Lab.re_search Lab.re_sub_MI Lab.normalize_lines _strip_ansi
           Lab.unicodedata_lookup Lab.channel "show clock" true w eq_refl).
  repeat constructor; vm_compute; intuition discriminate.
Defined.

Lemma send_input_returns_what_follows_the_return_witness :
  let w := Lab.device [b "show clock"; NL :: b "12:00:00 UTC"; NL :: b "r1#"] in
  exists output processed w',
    Lab.send_input "show clock" true w = Done (output, processed) w'
    /\ locked w' = false
    /\ writes_of (trace w') = ["show clock"; ch_comms_return_char Lab.channel].
Proof.
  intros w. eexists. eexists. eexists.
  split; [vm_compute; reflexivity|].
  match goal with
  | |- locked ?w' = false /\ _ =>
      destruct (@send_input_returns_what_follows_the_return _
                  Lab.get_prompt_pattern Lab.re_search Lab.re_sub_MI
                  Lab.normalize_lines _strip_ansi Lab.unicodedata_lookup
                  Lab.channel "show clock" true w w' _ _ eq_refl
                  ltac:(vm_compute; reflexivity))
        as (Hl & _ & Hw & _)
  end.
  split; [exact Hl|exact Hw].
Defined.

Lemma send_inputs_sends_each_in_order_witness :
  let w := Lab.device [b "show clock"; NL :: b "12:00:00 UTC" ++ NL :: b "r1#";
                       b "show users"; NL :: b "admin" ++ NL :: b "r1#"] in
  exists results w',
    Nssh.send_inputs Lab.get_prompt_pattern Lab.re_search Lab.re_sub_MI
      Lab.normalize_lines _strip_ansi Lab.bytes_decode Lab.unicodedata_lookup
      Lab.host Lab.channel (raw_inputs (StringSeq ["show clock"; "show users"]))
      true w = Done results w'
    /\ locked w' = false
    /\ map res_channel_input results = ["show clock"; "show users"].
Proof.
  intros w. eexists. eexists.
  split; [vm_compute; reflexivity|].
  match goal with
  | |- locked ?w' = false /\ map _ ?results = _ =>
      destruct (@send_inputs_sends_each_in_order _
                  Lab.get_prompt_pattern Lab.re_search Lab.re_sub_MI
                  Lab.normalize_lines _strip_ansi Lab.bytes_decode
                  Lab.unicodedata_lookup Lab.host Lab.channel
                  (StringSeq ["show clock"; "show users"]) true w w' results
                  eq_refl ltac:(vm_compute; reflexivity))
        as (Hl & Hm & _)
  end.
  split; [exact Hl|exact Hm].
Defined.

Lemma send_input_interact_raw_output_witness :
  let w := Lab.device [b "enable"; NL :: b "Password:"; NL :: b "r1#"] in
  exists output processed w',
    Lab.send_input_interact "enable" "assword:" "secret" "r1#" true w
    = Done (output, processed) w'
    /\ writes_of (trace w')
       = ["enable"; ch_comms_return_char Lab.channel;
          "secret"; ch_comms_return_char Lab.channel].
Proof.
  intros w. eexists. eexists. eexists.
  split; [vm_compute; reflexivity|].
  match goal with
  | |- writes_of (trace ?w') = _ =>
      destruct (@send_input_interact_raw_output _
                  Lab.get_prompt_pattern Lab.re_search Lab.re_sub_MI
                  Lab.normalize_lines _strip_ansi Lab.unicodedata_lookup
                  Lab.channel "enable" "assword:" "secret" "r1#" true w w' _ _
                  eq_refl ltac:(vm_compute; reflexivity))
        as (Hw & _)
  end.
  exact Hw.
Defined.

Lemma process_read_buf_bounded_witness :
  exists search_buf,
    _process_read_buf 1000 (mkBytesIO (b "r1#") 0)
    = Ok (search_buf, mkBytesIO (b "r1#") 3)
    /\ List.length search_buf <= 1000.
Proof.
  destruct (@process_read_buf_bounded 1000 (mkBytesIO (b "r1#") 0) ltac:(lia))
    as (search_buf & Hrun & Hlen & _).
  exists search_buf. split; [exact Hrun|exact Hlen].
Defined.
